(** * The matcher of fzf: request loop, partitioner and scan supervisor

    A shallow embedding of [src/matcher.go].  The file follows the source
    top-down: the collaborators the matcher consumes, the request and
    matcher records, [sliceChunks], the scan with its worker goroutines as
    an interleaving semantics driven by a schedule, and one cycle of
    [Loop].  *)

From Stdlib Require Import QArith.
From stdpp Require Import gmap strings list fin_maps numbers sorting.

Close Scope Q_scope.

Open Scope Z_scope.

(** ** Collaborators

    [matcher.go] uses types and functions declared in other files of the
    package ([Chunk], [Pattern], [Result], [revision], [CountItems],
    [ByRelevance], ...).  Their declarations are not part of this source
    file, so the matcher is embedded over an interface that lists exactly
    the operations [matcher.go] calls. *)

Class Collaborators := {
  Item : Type;
  Chunk : Type;
  Pattern : Type;
  Result : Type;
  revision : Type;
  revision_eq_dec :: EqDecision revision;
  (** [r.compatible(other)] *)
  compatible : revision → revision → bool;
  (** [pattern.AsString()], [pattern.IsEmpty()], [pattern.sortable] *)
  AsString : Pattern → string;
  IsEmpty : Pattern → bool;
  sortable : Pattern → bool;
  (** [pattern.Match(chunk, slab)] *)
  Match : Pattern → Chunk → list Result;
  (** [CountItems(chunks)] *)
  CountItems : list Chunk → Z;
  (** the live items of a chunk, in order *)
  chunk_items : Chunk → list Item;
  (** [chunk.items[0].Index()]; [None] stands for an index out of the
      range of the chunk's item storage *)
  item0_Index : Chunk → option Z;
  (** [chunk.lastIndex(minValue)] *)
  lastIndex : Chunk → Z → Z;
  (** [sort.Sort(ByRelevance(s))] and [sort.Sort(ByRelevanceTac(s))] *)
  sort_ByRelevance : list Result → list Result;
  sort_ByRelevanceTac : list Result → list Result;
  (** [progressMinDuration], in clock ticks *)
  progressMinDuration : Z;
}.

(** ** The partitioner *)

Module Partitioner.

(** The Go slice expression [l[lo:hi]]; it panics ([None]) unless
    [0 <= lo <= hi <= len(l)].  Go checks [hi] against the capacity, which
    is at least the length, so a [Some] here is never a panic there. *)
Definition slice {A} (l : list A) (lo hi : Z) : option (list A) :=
  if decide (0 ≤ lo ∧ lo ≤ hi ∧ hi ≤ Z.of_nat (length l))
  then Some (take (Z.to_nat (hi - lo)) (drop (Z.to_nat lo) l))
  else None.

(** [func (m *Matcher) sliceChunks(chunks []*Chunk) [][]*Chunk].
    [None] is a run-time panic: the division by a zero partition count, a
    [make] with a negative length, or a slice expression out of range. *)
Definition sliceChunks {A} (m_partitions : Z) (chunks : list A)
  : option (list (list A)) :=
  let len := Z.of_nat (length chunks) in
  if decide (m_partitions = 0) then None else
  let perSlice := Z.quot len m_partitions in
  let '(partitions, perSlice) :=
    if decide (perSlice = 0) then (len, 1) else (m_partitions, perSlice) in
  if decide (partitions < 0) then None else
  mapM (λ i,
          let start := i * perSlice in
          let end_ := start + perSlice in
          let end_ := if decide (i = partitions - 1) then len else end_ in
          slice chunks start end_)
       (seqZ 0 partitions).

End Partitioner.

(** ** Data model *)

Section Model.
Context `{Collaborators}.

(** Addresses of [*Merger] objects.  The loop stores the same pointer in
    the merger cache and in the published event and then writes the
    object's [final] field, so mergers live in a store. *)
Definition loc := nat.

(** Modelled from the spec: the Merger type and its constructors
    [EmptyMerger], [PassMerger] and [NewMerger] are declared outside
    [matcher.go].  The spec keeps a merger opaque except for the
    [final] flag, the [cacheable] predicate and the three constructors, so
    a merger is the record of the constructor call that built it plus its
    mutable [final] field (a fresh merger is not final). *)
Inductive MergerCall :=
| EmptyMerger (rev : revision)
| PassMerger (chunks : list Chunk) (tac : bool) (rev : revision)
| NewMerger (pattern : Pattern) (lists : list (list Result))
            (sorted tac : bool) (rev : revision) (minIndex maxIndex : Z).

Record Merger := mkMerger { built_by : MergerCall; final : bool }.

Definition fresh_merger (c : MergerCall) : Merger := mkMerger c false.

(** Modelled from the spec: the revision a merger is tagged with. *)
Definition merger_revision (mg : Merger) : revision :=
  match built_by mg with
  | EmptyMerger rev | PassMerger _ _ rev | NewMerger _ _ _ _ rev _ _ => rev
  end.

(** Modelled from the spec: a pass-through merger wraps all chunks
    unscored, every item a match, in original order, or reversed when tac
    is set. *)
Definition pass_items (chunks : list Chunk) (tac : bool) : list Item :=
  let all := concat (chunk_items <$> chunks) in
  if tac then reverse all else all.

(** Modelled from the spec: the number of entries a merger holds; an
    empty merger holds none. *)
Definition merger_length (mg : Merger) : nat :=
  match built_by mg with
  | EmptyMerger _ => 0%nat
  | PassMerger chunks tac _ => length (pass_items chunks tac)
  | NewMerger _ lists _ _ _ _ _ => length (concat lists)
  end.

(** [type MatchRequest struct] *)
Record MatchRequest := mkRequest {
  req_chunks : list Chunk;
  req_pattern : Pattern;
  req_final : bool;
  req_sort : bool;
  req_revision : revision;
}.

(** Events set on the matcher's [eventBox].  [EvtSearchProgress] carries
    [float32(count)/float32(numChunks)]; the event keeps both operands. *)
Inductive Event :=
| EvtSearchProgress (count numChunks : Z)
| EvtSearchFin (merger : loc).

(** The ratio an [EvtSearchProgress] event carries, as an exact
    rational. *)
Definition progress_ratio (e : Event) : option Q :=
  match e with
  | EvtSearchProgress count numChunks =>
      Some (inject_Z count / inject_Z numChunks)%Q
  | EvtSearchFin _ => None
  end.

(** [type Matcher struct].  [m_cache] counts the [Clear()] calls made on
    the upstream [*ChunkCache]; [m_slab] records which slab slots are
    allocated; [m_eventBox] is the sequence of [eventBox.Set] calls. *)
Record Matcher := mkMatcher {
  m_cache : nat;
  m_sort : bool;
  m_tac : bool;
  m_eventBox : list Event;
  m_partitions : Z;
  m_slab : list bool;
  m_mergerCache : gmap string loc;
  m_revision : revision;
}.

(** [func NewMatcher]: [partitions] is
    [util.Min(numPartitionsMultiplier*runtime.NumCPU(), maxPartitions)],
    whose operands are declared elsewhere. *)
Definition NewMatcher (numPartitionsMultiplier numCPU maxPartitions : Z)
    (sort tac : bool) (rev : revision) : Matcher :=
  let partitions := Z.min (numPartitionsMultiplier * numCPU) maxPartitions in
  {| m_cache := 0%nat; m_sort := sort; m_tac := tac; m_eventBox := [];
     m_partitions := partitions;
     m_slab := replicate (Z.to_nat partitions) false;
     m_mergerCache := ∅; m_revision := rev |}.

(** [type partialResult struct] *)
Record partialResult := mkPartial { pr_index : nat; pr_matches : list Result }.

(** ** The scan

    [scan] starts one goroutine per slice and then supervises them.  The
    goroutines, the supervisor, the caller that may post [reqReset] and
    the clock interleave; a schedule lists who moves next. *)

(** Where a worker goroutine stands. *)
Inductive WorkerPC :=
| WLoop (todo : list Chunk)
  (** at the head of [for idx, chunk := range chunks], [todo] left *)
| WSend (n : Z) (todo : list Chunk)
  (** read the flag as unset, about to do [countChan <- len(matches)] *)
| WReturned.
  (** the goroutine ended and [waitGroup.Done()] ran *)

(** A worker goroutine: its locals, and [w_handed], the matches it sent
    on [resultChan] if it did. *)
Record Worker := mkWorker {
  w_idx : nat;
  w_allMatches : list (list Result);
  w_count : Z;
  w_handed : option (list Result);
  w_pc : WorkerPC;
}.

(** Where the supervising goroutine stands. *)
Inductive SupPC :=
| SCounting
  (** in [for matchesInChunk := range countChan] *)
| SWaiting
  (** in [wait()]: flag set, blocked in [waitGroup.Wait()] *)
| SCollecting (received : nat) (partialResults : list (list Result))
  (** in [for range slices] *)
| SReturned (merger : option Merger) (cancelled : bool)
| SPanicked.

Record ScanState := mkScan {
  workers : list Worker;
  sup : SupPC;
  count : Z;                        (** the supervisor's [count] *)
  matchCount : Z;                   (** the supervisor's [matchCount] *)
  cancelled : bool;                 (** [util.NewAtomicBool(false)] *)
  countChan : list Z;               (** buffered, capacity [numChunks] *)
  resultChan : list partialResult;  (** buffered, capacity [numSlices] *)
  reqReset : bool;                  (** [m.reqBox.Peek(reqReset)] *)
  clock : Z;                        (** [time.Since(startedAt)] *)
  emitted : list Event;             (** [m.eventBox.Set] calls, in order *)
  scored : nat;                     (** calls of [pattern.Match] so far *)
}.

Inductive Action :=
| RunWorker (i : nat)   (** goroutine [i] takes its next step *)
| RunSupervisor         (** the supervisor takes its next step *)
| PostReset             (** another goroutine posts [reqReset] *)
| Tick.                 (** the clock advances *)

Definition set_workers (st : ScanState) (ws : list Worker) : ScanState :=
  mkScan ws (sup st) (count st) (matchCount st) (cancelled st)
         (countChan st) (resultChan st) (reqReset st) (clock st)
         (emitted st) (scored st).

Definition set_sup (st : ScanState) (pc : SupPC) : ScanState :=
  mkScan (workers st) pc (count st) (matchCount st) (cancelled st)
         (countChan st) (resultChan st) (reqReset st) (clock st)
         (emitted st) (scored st).

Definition set_countChan (st : ScanState) (c : list Z) : ScanState :=
  mkScan (workers st) (sup st) (count st) (matchCount st) (cancelled st)
         c (resultChan st) (reqReset st) (clock st)
         (emitted st) (scored st).

Definition set_resultChan (st : ScanState) (c : list partialResult)
  : ScanState :=
  mkScan (workers st) (sup st) (count st) (matchCount st) (cancelled st)
         (countChan st) c (reqReset st) (clock st)
         (emitted st) (scored st).

Section Steps.
(** The request and matcher fields the goroutines close over. *)
Variable (pattern : Pattern) (sorted tac : bool) (rev : revision).
Variable (numChunks : Z) (numSlices : nat) (minIndex maxIndex : Z).

(** Lines 195-205: concatenate, and sort when asked. *)
Definition sliceMatches_of (allMatches : list (list Result)) : list Result :=
  let sliceMatches := concat allMatches in
  if sorted then
    if tac then sort_ByRelevanceTac sliceMatches
    else sort_ByRelevance sliceMatches
  else sliceMatches.

(** One step of worker [w] (lines 182-207). *)
Definition step_worker (st : ScanState) (w : Worker)
  : ScanState * Worker :=
  match w_pc w with
  | WLoop (chunk :: todo) =>
      let matches := Match pattern chunk in
      let st :=
        mkScan (workers st) (sup st) (count st) (matchCount st)
               (cancelled st) (countChan st) (resultChan st) (reqReset st)
               (clock st) (emitted st) (S (scored st)) in
      let allMatches := w_allMatches w ++ [matches] in
      let count := w_count w + Z.of_nat (length matches) in
      if cancelled st then
        (st, mkWorker (w_idx w) allMatches count (w_handed w) WReturned)
      else
        (st, mkWorker (w_idx w) allMatches count (w_handed w)
                      (WSend (Z.of_nat (length matches)) todo))
  | WSend n todo =>
      if decide (Z.of_nat (length (countChan st)) < numChunks) then
        (set_countChan st (countChan st ++ [n]),
         mkWorker (w_idx w) (w_allMatches w) (w_count w) (w_handed w)
                  (WLoop todo))
      else (st, w)
  | WLoop [] =>
      let sliceMatches := sliceMatches_of (w_allMatches w) in
      if decide (length (resultChan st) < numSlices)%nat then
        (set_resultChan st
           (resultChan st ++ [mkPartial (w_idx w) sliceMatches]),
         mkWorker (w_idx w) (w_allMatches w) (w_count w)
                  (Some sliceMatches) WReturned)
      else (st, w)
  | WReturned => (st, w)
  end.

(** Lines 235-240: [for range slices] has run [received] times. *)
Definition collect (received : nat) (partialResults : list (list Result))
  : SupPC :=
  if decide (received = numSlices) then
    SReturned (Some (fresh_merger
      (NewMerger pattern partialResults sorted tac rev minIndex maxIndex)))
      false
  else SCollecting received partialResults.

Definition all_returned (ws : list Worker) : bool :=
  forallb (λ w, match w_pc w with WReturned => true | _ => false end) ws.

(** One step of the supervisor (lines 216-240). *)
Definition step_supervisor (st : ScanState) : ScanState :=
  match sup st with
  | SCounting =>
      match countChan st with
      | [] => st
      | matchesInChunk :: rest =>
          let count := count st + 1 in
          let matchCount := matchCount st + matchesInChunk in
          let st :=
            mkScan (workers st) (sup st) count matchCount (cancelled st)
                   rest (resultChan st) (reqReset st) (clock st)
                   (emitted st) (scored st) in
          if decide (count = numChunks) then
            set_sup st (collect 0 (replicate numSlices []))
          else if reqReset st then
            mkScan (workers st) SWaiting count matchCount true
                   (countChan st) (resultChan st) (reqReset st) (clock st)
                   (emitted st) (scored st)
          else if decide (clock st > progressMinDuration) then
            mkScan (workers st) (sup st) count matchCount (cancelled st)
                   (countChan st) (resultChan st) (reqReset st) (clock st)
                   (emitted st ++ [EvtSearchProgress count numChunks])
                   (scored st)
          else st
      end
  | SWaiting =>
      if all_returned (workers st) then set_sup st (SReturned None true)
      else st
  | SCollecting received partialResults =>
      match resultChan st with
      | [] => st
      | partialResult :: rest =>
          let st := set_resultChan st rest in
          if decide (pr_index partialResult < length partialResults)%nat then
            set_sup st
              (collect (S received)
                 (<[pr_index partialResult := pr_matches partialResult]>
                    partialResults))
          else set_sup st SPanicked
      end
  | SReturned _ _ | SPanicked => st
  end.

Definition step (st : ScanState) (a : Action) : ScanState :=
  match a with
  | RunWorker i =>
      match workers st !! i with
      | Some w =>
          let '(st, w) := step_worker st w in
          set_workers st (<[i := w]> (workers st))
      | None => st
      end
  | RunSupervisor => step_supervisor st
  | PostReset =>
      mkScan (workers st) (sup st) (count st) (matchCount st) (cancelled st)
             (countChan st) (resultChan st) true (clock st)
             (emitted st) (scored st)
  | Tick =>
      mkScan (workers st) (sup st) (count st) (matchCount st) (cancelled st)
             (countChan st) (resultChan st) (reqReset st) (clock st + 1)
             (emitted st) (scored st)
  end.

Definition run (sched : list Action) (st : ScanState) : ScanState :=
  foldl step st sched.

End Steps.

(** ** Invariants of a running scan

    [slices] are the slices the goroutines were started on. *)
Section Invariants.
Variable (pattern : Pattern) (sorted tac : bool) (rev : revision).
Variable (numChunks : Z) (minIndex maxIndex : Z).
Variable (slices : list (list Chunk)).

(** What the goroutine of a slice hands over when it runs to its end. *)
Definition handoff (slice : list Chunk) : list Result :=
  sliceMatches_of sorted tac (Match pattern <$> slice).

(** Goroutine [i], on [slice]: while it loops it has scored a prefix of
    the slice and handed nothing; once returned it either handed the
    sorted matches of the whole slice, or it saw the flag right after
    scoring [chunk] and handed nothing. *)
Definition worker_inv (flag : bool) (i : nat) (slice : list Chunk)
    (w : Worker) : Prop :=
  w_idx w = i ∧
  match w_pc w with
  | WLoop todo | WSend _ todo =>
      ∃ scored, slice = scored ++ todo
        ∧ w_allMatches w = Match pattern <$> scored
        ∧ w_handed w = None
  | WReturned =>
      (w_handed w = Some (handoff slice)
       ∧ w_allMatches w = Match pattern <$> slice)
      ∨ (w_handed w = None ∧ flag = true
         ∧ ∃ scored chunk todo, slice = scored ++ chunk :: todo
             ∧ w_allMatches w = Match pattern <$> (scored ++ [chunk]))
  end.

Definition workers_inv (st : ScanState) : Prop :=
  length (workers st) = length slices
  ∧ ∀ i w, workers st !! i = Some w →
      ∃ slice, slices !! i = Some slice
        ∧ worker_inv (cancelled st) i slice w.

(** The merger an uncancelled scan returns: the hand-offs of the slices,
    in slice order. *)
Definition scan_merger : Merger :=
  fresh_merger
    (NewMerger pattern (handoff <$> slices) sorted tac rev minIndex maxIndex).

(** The supervisor, with [R] the partitions whose result it received. *)
Definition sup_inv (R : gset nat) (st : ScanState) : Prop :=
  match sup st with
  | SCounting | SWaiting => R = ∅
  | SCollecting received partialResults =>
      size R = received
      ∧ length partialResults = length slices
      ∧ ∀ i slice, slices !! i = Some slice →
          partialResults !! i
          = Some (if decide (i ∈ R) then handoff slice else [])
  | SReturned (Some mg) c =>
      c = false ∧ mg = scan_merger ∧ count st = numChunks
  | SReturned None c => c = true
  | SPanicked => False
  end.

(** The result channel holds what goroutines handed and the supervisor
    has not received yet, at most one result per goroutine. *)
Definition chan_inv (st : ScanState) : Prop :=
  ∃ R : gset nat,
    NoDup (pr_index <$> resultChan st)
    ∧ (∀ r, r ∈ resultChan st →
         (pr_index r ∉ R)
         ∧ ∃ w, workers st !! pr_index r = Some w
             ∧ w_handed w = Some (pr_matches r))
    ∧ (∀ i, i ∈ R → ∃ w, workers st !! i = Some w ∧ is_Some (w_handed w))
    ∧ (match sup st with
       | SCollecting _ _ => count st = numChunks
       | _ => True
       end)
    ∧ sup_inv R st.

(** The state once the first [k] goroutines ran to their end, one after
    the other, while the others and the supervisor have not moved. *)
Definition first_returned (k : nat) (st : ScanState) : Prop :=
  length (workers st) = length slices
  ∧ (∀ j w, (j < k)%nat → workers st !! j = Some w → w_pc w = WReturned)
  ∧ (∀ j slice, (k ≤ j)%nat → slices !! j = Some slice →
       ∃ w, workers st !! j = Some w ∧ w_pc w = WLoop slice)
  ∧ length (countChan st) = length (concat (take k slices))
  ∧ length (resultChan st) = k
  ∧ Forall (λ r, (pr_index r < length slices)%nat) (resultChan st)
  ∧ (∀ j w, workers st !! j = Some w → w_idx w = j)
  ∧ sup st = SCounting ∧ cancelled st = false
  ∧ reqReset st = false ∧ count st = 0.

Definition scan_inv (st : ScanState) : Prop :=
  workers_inv st ∧ chan_inv st.

(** The chunks a goroutine has still to report on [countChan]. *)
Definition pending (w : Worker) : nat :=
  match w_pc w with
  | WLoop todo => length todo
  | WSend _ todo => S (length todo)
  | WReturned => 0
  end.

(** 1 for a goroutine that has not returned. *)
Definition alive (w : Worker) : nat :=
  match w_pc w with
  | WReturned => 0
  | _ => 1
  end.

(** The supervisor's [count], what waits in [countChan] and what the
    goroutines have still to report never exceed the number of chunks;
    and every progress event set so far carries a count strictly between
    0 and that number. *)
Definition count_inv (st : ScanState) : Prop :=
  0 ≤ count st
  ∧ count st + Z.of_nat (length (countChan st))
    + Z.of_nat (sum_list (pending <$> workers st)) ≤ numChunks
  ∧ Forall (λ e, ∃ c, e = EvtSearchProgress c numChunks ∧ 0 < c < numChunks)
           (emitted st).

(** The cancellation flag is set exactly while the supervisor is in
    [wait()] or has returned cancelled; it is set only after a reset was
    posted and before the last chunk was counted, and the supervisor
    returns cancelled only once every goroutine has returned. *)
Definition cancel_inv (st : ScanState) : Prop :=
  match sup st with
  | SWaiting =>
      cancelled st = true ∧ reqReset st = true ∧ count st ≠ numChunks
  | SReturned None _ =>
      cancelled st = true ∧ reqReset st = true ∧ count st ≠ numChunks
      ∧ all_returned (workers st) = true
  | _ => cancelled st = false
  end.

(** The progress events set so far carry strictly increasing counts over
    the fixed total, none above the supervisor's [count]. *)
Definition progress_inv (st : ScanState) : Prop :=
  ∃ counts,
    emitted st = (λ c, EvtSearchProgress c numChunks) <$> counts
    ∧ StronglySorted Z.lt counts
    ∧ Forall (λ c, 0 < c ≤ count st) counts
    ∧ 0 ≤ count st.

End Invariants.

(** Lines 177-181 and 207: one goroutine per slice, allocating the slab
    slot on first use.  [None] is an index out of the range of [m.slab]. *)
Fixpoint spawn (idx : nat) (slab : list bool) (slices : list (list Chunk))
  : option (list bool * list Worker) :=
  match slices with
  | [] => Some (slab, [])
  | chunks :: slices =>
      match slab !! idx with
      | None => None
      | Some _ =>
          '(slab, ws) ← spawn (S idx) (<[idx := true]> slab) slices;
          Some (slab, mkWorker idx [] 0 None (WLoop chunks) :: ws)
      end
  end.

(** A scan that returned at once, without starting a goroutine. *)
Definition returned_at_once (c : MergerCall) : ScanState :=
  mkScan [] (SReturned (Some (fresh_merger c)) false) 0 0 false [] []
         false 0 [] 0.

(** The state [scan] is in when its goroutines [ws] are started and the
    supervisor enters its counting loop. *)
Definition scan_start (ws : list Worker) : ScanState :=
  mkScan ws SCounting 0 0 false [] [] false 0 [] 0.

(** [func (m *Matcher) scan(request MatchRequest)], returning a merger
    pointer and the cancelled flag, run under the schedule [sched].  The result is the matcher (its slab
    slots may have been allocated and progress events set) and the state
    the scan is in when the schedule ends; [None] is a panic before any
    goroutine started. *)
Definition scan (m : Matcher) (request : MatchRequest) (sched : list Action)
  : option (Matcher * ScanState) :=
  let numChunks := Z.of_nat (length (req_chunks request)) in
  if decide (numChunks = 0) then
    Some (m, returned_at_once (EmptyMerger (req_revision request)))
  else
  let pattern := req_pattern request in
  if IsEmpty pattern then
    Some (m, returned_at_once
               (PassMerger (req_chunks request) (m_tac m)
                           (req_revision request)))
  else
  chunk0 ← req_chunks request !! 0%nat;
  minIndex ← item0_Index chunk0;
  chunkN ← req_chunks request !! Z.to_nat (numChunks - 1);
  let maxIndex := lastIndex chunkN minIndex in
  slices ← Partitioner.sliceChunks (m_partitions m) (req_chunks request);
  let numSlices := length slices in
  '(slab, ws) ← spawn 0 (m_slab m) slices;
  let st :=
    run pattern (m_sort m && sortable pattern) (m_tac m)
        (req_revision request) numChunks numSlices minIndex maxIndex
        sched (scan_start ws) in
  Some ({| m_cache := m_cache m; m_sort := m_sort m; m_tac := m_tac m;
           m_eventBox := m_eventBox m ++ emitted st;
           m_partitions := m_partitions m; m_slab := slab;
           m_mergerCache := m_mergerCache m; m_revision := m_revision m |},
        st).

(** ** The request loop *)

(** The [cacheable()] method of the merger, declared outside
    [matcher.go]. *)
Class MergerMethods := { cacheable : Merger → bool }.
Context `{MergerMethods}.

(** What [Loop] holds between two cycles: the matcher, the local
    [prevCount], and the store of merger objects. *)
Record LoopState := mkLoop {
  ls_m : Matcher;
  ls_prevCount : Z;
  ls_heap : gmap loc Merger;
}.

Inductive CycleEnd :=
| CycleDone (ls : LoopState)  (** the cycle reached the end of the body *)
| CyclePending                (** the scan has not returned yet *)
| CyclePanic.

(** What one cycle did: whether lines 86-94 cleared the caches, the
    cached merger it reused (if any), the scan it ran (if any), and how
    it ended. *)
Record Cycle := mkCycle {
  cy_cacheCleared : bool;
  cy_cached : option loc;
  cy_scan : option ScanState;
  cy_end : CycleEnd;
}.

Definition set_mergerCache (m : Matcher) (c : gmap string loc) : Matcher :=
  {| m_cache := m_cache m; m_sort := m_sort m; m_tac := m_tac m;
     m_eventBox := m_eventBox m; m_partitions := m_partitions m;
     m_slab := m_slab m; m_mergerCache := c; m_revision := m_revision m |}.

(** Lines 85-94. *)
Definition invalidate (m : Matcher) (request : MatchRequest)
  : Matcher * bool :=
  if decide (req_sort request ≠ m_sort m
             ∨ req_revision request ≠ m_revision m) then
    let m :=
      {| m_cache := m_cache m; m_sort := req_sort request; m_tac := m_tac m;
         m_eventBox := m_eventBox m; m_partitions := m_partitions m;
         m_slab := m_slab m; m_mergerCache := m_mergerCache m;
         m_revision := m_revision m |} in
    let m :=
      {| m_cache := m_cache m; m_sort := m_sort m; m_tac := m_tac m;
         m_eventBox := m_eventBox m; m_partitions := m_partitions m;
         m_slab := m_slab m; m_mergerCache := m_mergerCache m;
         m_revision := req_revision request |} in
    let m := set_mergerCache m ∅ in
    let m :=
      if negb (compatible (req_revision request) (m_revision m)) then
        {| m_cache := S (m_cache m); m_sort := m_sort m; m_tac := m_tac m;
           m_eventBox := m_eventBox m; m_partitions := m_partitions m;
           m_slab := m_slab m; m_mergerCache := m_mergerCache m;
           m_revision := m_revision m |}
      else m in
    (m, true)
  else (m, false).

(** Lines 102-113.  [None] is a nil dereference in [cached.final]. *)
Definition lookup_cache (m : Matcher) (prevCount : Z)
    (heap : gmap loc Merger) (request : MatchRequest)
    (cacheCleared : bool) (patternString : string) (count : Z)
  : option (Matcher * Z * option loc) :=
  if negb cacheCleared then
    if decide (count = prevCount) then
      match m_mergerCache m !! patternString with
      | Some cached =>
          mg ← heap !! cached;
          if decide (final mg = req_final request)
          then Some (m, prevCount, Some cached)
          else Some (m, prevCount, None)
      | None => Some (m, prevCount, None)
      end
    else Some (set_mergerCache m ∅, count, None)
  else Some (m, prevCount, None).

(** Lines 119-125, for a merger that is not nil. *)
Definition publish (m : Matcher) (prevCount : Z) (heap : gmap loc Merger)
    (request : MatchRequest) (patternString : string) (merger : loc)
  : CycleEnd :=
  match heap !! merger with
  | None => CyclePanic
  | Some mg =>
      let m :=
        if cacheable mg
        then set_mergerCache m (<[patternString := merger]> (m_mergerCache m))
        else m in
      let heap := <[merger := mkMerger (built_by mg) (req_final request)]> heap in
      let m :=
        {| m_cache := m_cache m; m_sort := m_sort m; m_tac := m_tac m;
           m_eventBox := m_eventBox m ++ [EvtSearchFin merger];
           m_partitions := m_partitions m; m_slab := m_slab m;
           m_mergerCache := m_mergerCache m; m_revision := m_revision m |} in
      CycleDone (mkLoop m prevCount heap)
  end.

(** One iteration of the [for] in [Loop] once [reqBox.Wait] delivered
    [request]; [sched] drives the scan if one is run. *)
Definition cycle (ls : LoopState) (request : MatchRequest)
    (sched : list Action) : Cycle :=
  let '(m, cacheCleared) := invalidate (ls_m ls) request in
  let patternString := AsString (req_pattern request) in
  let count := CountItems (req_chunks request) in
  match lookup_cache m (ls_prevCount ls) (ls_heap ls) request cacheCleared
                     patternString count with
  | None => mkCycle cacheCleared None None CyclePanic
  | Some (m, prevCount, Some merger) =>
      mkCycle cacheCleared (Some merger) None
        (publish m prevCount (ls_heap ls) request patternString merger)
  | Some (m, prevCount, None) =>
      match scan m request sched with
      | None => mkCycle cacheCleared None None CyclePanic
      | Some (m, st) =>
          mkCycle cacheCleared None (Some st)
            match sup st with
            | SReturned _ true => CycleDone (mkLoop m prevCount (ls_heap ls))
            | SReturned None false => CyclePanic
            | SReturned (Some mg) false =>
                let merger := fresh (dom (ls_heap ls)) in
                publish m prevCount (<[merger := mg]> (ls_heap ls))
                        request patternString merger
            | SPanicked => CyclePanic
            | _ => CyclePending
            end
      end
  end.

(** What [reqBox.Wait] hands to the loop: [reqQuit], or the request that
    survived the drain together with the schedule of its scan. *)
Inductive Wake :=
| WakeQuit
| WakeRequest (request : MatchRequest) (sched : list Action).

(** [func (m *Matcher) Loop()]: the cycles run so far, oldest first, and
    the state the loop is left in. *)
Fixpoint Loop (ls : LoopState) (wakes : list Wake)
  : list Cycle * CycleEnd :=
  match wakes with
  | [] => ([], CycleDone ls)
  | WakeQuit :: _ => ([], CycleDone ls)
  | WakeRequest request sched :: wakes =>
      let cy := cycle ls request sched in
      match cy_end cy with
      | CycleDone ls' =>
          let '(cys, e) := Loop ls' wakes in (cy :: cys, e)
      | e => ([cy], e)
      end
  end.

(** [prevCount := 0] *)
Definition Loop_start (m : Matcher) : LoopState := mkLoop m 0 ∅.

End Model.

(** ** A concrete instance, for evaluating the model

    Items are their indices, a chunk is the list of its items, a pattern
    is its query string and matches the items not below the query's
    length. *)

Module Fixture.

(** Modelled from the spec: a revision is a generation token; two
    revisions are equal, compatible (same logical dataset) or
    incompatible.  Here a revision is a dataset number and a generation
    within the dataset. *)
Definition rev : Type := nat * nat.
Definition rev_compatible (r other : rev) : bool :=
  bool_decide (r.1 = other.1).

Definition chunk_last (c : list Z) (minValue : Z) : Z :=
  default minValue (list.last c).

#[global] Instance collaborators : Collaborators := {|
  Item := Z;
  Chunk := list Z;
  Pattern := string;
  Result := Z;
  revision := rev;
  compatible := rev_compatible;
  AsString := λ p, p;
  IsEmpty := λ p, bool_decide (p = EmptyString);
  sortable := λ _, true;
  Match := λ p c, filter (λ x, Z.of_nat (String.length p) ≤ x) c;
  CountItems := λ cs, Z.of_nat (length (concat cs));
  chunk_items := λ c, c;
  item0_Index := λ c, head c;
  lastIndex := chunk_last;
  sort_ByRelevance := merge_sort Z.le;
  sort_ByRelevanceTac := λ s, reverse (merge_sort Z.le s);
  progressMinDuration := 1;
|}.

(** Modelled from the spec: a merger is cacheable only if it is not
    empty. *)
#[global] Instance merger_methods : MergerMethods :=
  {| cacheable := λ mg, bool_decide (0 < merger_length mg)%nat |}.

Definition matcher0 : Matcher :=
  NewMatcher 8 1 32 true false (0%nat, 0%nat).

Definition chunks5 : list (list Z) := [[1; 2]; [3]; [4; 5]; [6]; [7; 8; 9]].

Definition request (q : string) (fin srt : bool) (r : rev) : MatchRequest :=
  mkRequest chunks5 q fin srt r.

Definition request_ab : MatchRequest :=
  request "ab" false true (0%nat, 0%nat).

(** The same query on another dataset: an incompatible revision. *)
Definition request_new_dataset : MatchRequest :=
  request "ab" false true (1%nat, 0%nat).

(** The same query with sorting switched off. *)
Definition request_unsorted : MatchRequest :=
  request "ab" false false (0%nat, 0%nat).

Definition request_no_chunks : MatchRequest :=
  mkRequest [] "ab" false true (0%nat, 0%nat).

Definition request_empty_query : MatchRequest :=
  request "" false true (0%nat, 0%nat).

(** Every goroutine runs to its end in turn, then the supervisor. *)
Definition sched_in_order : list Action :=
  concat ((λ i, replicate 8 (RunWorker i)) <$> seq 0 5)
  ++ replicate 12 RunSupervisor.

(** The goroutines run last to first. *)
Definition sched_reversed : list Action :=
  concat ((λ i, replicate 8 (RunWorker i)) <$> reverse (seq 0 5))
  ++ replicate 12 RunSupervisor.

(** Goroutine 0 reports its first chunk, then a reset is posted. *)
Definition sched_reset : list Action :=
  [RunWorker 0; RunWorker 0; PostReset; RunSupervisor]
  ++ concat ((λ i, replicate 8 (RunWorker i)) <$> seq 0 5)
  ++ [RunSupervisor].

(** The clock passes [progressMinDuration] before the supervisor
    counts. *)
Definition sched_slow : list Action := [Tick; Tick] ++ sched_in_order.

End Fixture.

(** * Theorems *)

(** ** The partitioner *)

Section PartitionerFacts.
Context {A : Type}.
Implicit Types (l : list A) (k q j : nat).

(** The first [j] regular slices of width [q] make up the first [j*q]
    elements. *)
Lemma concat_regular l q j :
  concat ((λ i, take q (drop (i * q) l)) <$> seq 0 j) = take (j * q) l.
Proof.
  induction j as [|j IH]; [done|].
  rewrite seq_S, fmap_app, concat_app, IH. simpl.
  rewrite app_nil_r, take_take_drop. f_equal. lia.
Qed.

(** The slices the loop of [sliceChunks] builds for [k] partitions of
    width [q]. *)
Lemma mapM_slices l k q :
  (1 ≤ k)%nat → (k * q ≤ length l)%nat →
  mapM (λ i : Z,
          Partitioner.slice l (i * Z.of_nat q)
            (if decide (i = Z.of_nat k - 1) then Z.of_nat (length l)
             else i * Z.of_nat q + Z.of_nat q))
       (seqZ 0 (Z.of_nat k))
  = Some (((λ i, take q (drop (i * q) l)) <$> seq 0 (k - 1))
          ++ [drop ((k - 1) * q) l]).
Proof.
  intros Hk Hkq. apply mapM_Some_2, Forall2_same_length_lookup_2.
  { rewrite length_seqZ, length_app, length_fmap, length_seq. simpl. lia. }
  intros i x s [-> Hi]%lookup_seqZ Hs. simpl.
  assert (Hle : ((k - 1) * q ≤ length l)%nat) by nia.
  destruct (decide (i < k - 1)%nat) as [Hlt|Hge].
  - rewrite lookup_app_l in Hs
      by (rewrite length_fmap, length_seq; lia).
    rewrite list_lookup_fmap, lookup_seq_lt in Hs by lia.
    simpl in Hs. injection Hs as <-.
    assert (i * q + q ≤ length l)%nat by nia.
    replace ((0 + Z.of_nat i) * Z.of_nat q) with (Z.of_nat (i * q)) by lia.
    rewrite decide_False by lia. unfold Partitioner.slice.
    rewrite decide_True by lia.
    do 2 f_equal; [lia|f_equal; lia].
  - assert (i = (k - 1)%nat) as -> by lia.
    rewrite lookup_app_r in Hs
      by (rewrite length_fmap, length_seq; lia).
    rewrite length_fmap, length_seq, Nat.sub_diag in Hs.
    injection Hs as <-.
    replace ((0 + Z.of_nat (k - 1)%nat) * Z.of_nat q)
      with (Z.of_nat ((k - 1) * q)) by lia.
    rewrite decide_True by lia. unfold Partitioner.slice.
    generalize dependent ((k - 1) * q)%nat. intros n Hn.
    rewrite decide_True by lia.
    rewrite Nat2Z.id, take_ge; [done|]. rewrite length_drop. lia.
Qed.

(** The partitions and width [sliceChunks] settles on. *)
Lemma sliceChunks_eq (P : Z) l :
  1 ≤ P → l ≠ [] →
  let N := length l in
  let q := if decide (Z.of_nat N < P) then 1%nat else Z.to_nat (Z.of_nat N / P) in
  let k := if decide (Z.of_nat N < P) then N else Z.to_nat P in
  Partitioner.sliceChunks P l
  = Some (((λ i, take q (drop (i * q) l)) <$> seq 0 (k - 1))
          ++ [drop ((k - 1) * q) l]).
Proof.
  intros HP Hl N q k. assert (1 ≤ N)%nat by (destruct l; simpl in *; [done|subst N; simpl; lia]).
  unfold Partitioner.sliceChunks. fold N.
  rewrite decide_False by lia.
  rewrite Z.quot_div_nonneg by lia.
  subst q k. destruct (decide (Z.of_nat N < P)) as [Hlt|Hge].
  - rewrite Z.div_small by lia. rewrite decide_True by done.
    rewrite decide_False by lia.
    pose proof (mapM_slices l N 1 ltac:(lia) ltac:(lia)) as E.
    rewrite <- E. f_equal.
  - assert (0 < Z.of_nat N / P) by (apply Z.div_str_pos; lia).
    rewrite decide_False by lia. rewrite decide_False by lia.
    assert (P * (Z.of_nat N / P) ≤ Z.of_nat N) by (apply Z.mul_div_le; lia).
    pose proof (mapM_slices l (Z.to_nat P) (Z.to_nat (Z.of_nat N / P))
                  ltac:(lia) ltac:(nia)) as E.
    rewrite <- E. rewrite !Z2Nat.id by lia. done.
Qed.

(** The width of each slice: [q] for all but the last, which takes what is
    left. *)
Lemma slices_lookup_length l k q i s :
  (1 ≤ k)%nat → (k * q ≤ length l)%nat →
  (((λ i, take q (drop (i * q) l)) <$> seq 0 (k - 1))
     ++ [drop ((k - 1) * q) l]) !! i = Some s →
  (i < k)%nat ∧
  length s = if decide (i = (k - 1)%nat) then (length l - (k - 1) * q)%nat else q.
Proof.
  intros Hk Hkq Hs.
  assert (Hle : ((k - 1) * q ≤ length l)%nat) by nia.
  apply lookup_app_Some in Hs as [Hs|[Hlen Hs]].
  - rewrite list_lookup_fmap in Hs.
    destruct (seq 0 (k - 1) !! i) as [j|] eqn:Hj; [|done].
    apply lookup_seq in Hj as [-> Hj]. simpl in *. injection Hs as <-.
    split; [lia|]. rewrite decide_False by lia.
    rewrite length_take, length_drop. nia.
  - rewrite length_fmap, length_seq in Hlen, Hs.
    destruct (i - (k - 1))%nat as [|?] eqn:E; [|done].
    simpl in Hs. injection Hs as <-.
    split; [lia|]. rewrite decide_True by lia. by rewrite length_drop.
Qed.
End PartitionerFacts.

(** [sliceChunks] succeeds for a positive partition count, covers the
    chunks and makes at least one and at most [P] slices. *)
Lemma sliceChunks_covers {A} (P : Z) (chunks : list A) :
  1 ≤ P → chunks ≠ [] →
  ∃ slices,
    Partitioner.sliceChunks P chunks = Some slices
    ∧ concat slices = chunks
    ∧ (1 ≤ length slices ≤ Z.to_nat P)%nat.
Proof.
  intros HP Hne. pose proof (sliceChunks_eq P chunks HP Hne) as E.
  simpl in E. eexists. split; [exact E|]. split.
  - rewrite concat_app, concat_regular. simpl.
    by rewrite app_nil_r, take_drop.
  - rewrite length_app, length_fmap, length_seq. simpl.
    assert (1 ≤ length chunks)%nat by (destruct chunks; simpl; [done|lia]).
    case_decide; lia.
Qed.

(** C3. For a non-empty chunk sequence of length [N] and a partition count
    [P >= 1], [sliceChunks] returns slices whose concatenation in index
    order is the input, none of them empty; when [N < P] there are [N]
    slices of one chunk each, and otherwise there are [P] slices, each of
    [N/P] chunks except the last, which also takes the [N mod P] chunks
    that remain. *)
Theorem sliceChunks_partition {A} (P : Z) (chunks : list A) :
  1 ≤ P → chunks ≠ [] →
  let N := Z.of_nat (length chunks) in
  ∃ slices,
    Partitioner.sliceChunks P chunks = Some slices
    ∧ concat slices = chunks
    ∧ Forall (λ s, s ≠ []) slices
    ∧ (N < P →
       length slices = length chunks
       ∧ Forall (λ s, length s = 1%nat) slices)
    ∧ (P ≤ N →
       Z.of_nat (length slices) = P
       ∧ ∀ i s, slices !! i = Some s →
           Z.of_nat (length s)
           = if decide (Z.of_nat i = P - 1) then N / P + N mod P
             else N / P).
Proof.
  intros HP Hne N.
  assert (HN : N = Z.of_nat (length chunks)) by done.
  assert (1 ≤ N) by (subst N; destruct chunks; simpl; [done|lia]).
  pose proof (sliceChunks_eq P chunks HP Hne) as E. simpl in E.
  fold N in E. clearbody N.
  assert (Hdiv : P * (N / P) ≤ N) by (apply Z.mul_div_le; lia).
  assert (Hmod : N = P * (N / P) + N mod P) by (apply Z.div_mod; lia).
  destruct (decide (N < P)) as [Hlt|Hge].
  - pose proof (slices_lookup_length chunks (length chunks) 1) as L.
    eexists. split; [exact E|]. split; [|split; [|split]].
    + rewrite concat_app, concat_regular. simpl.
      by rewrite app_nil_r, take_drop.
    + apply Forall_lookup. intros i s Hs.
      apply L in Hs as [Hi Hs]; [|lia..].
      intros ->. simpl in Hs. case_decide; lia.
    + intros _. split.
      * rewrite length_app, length_fmap, length_seq. simpl. lia.
      * apply Forall_lookup. intros i s Hs.
        apply L in Hs as [Hi Hs]; [|lia..]. case_decide; lia.
    + lia.
  - assert (0 < N / P) by (apply Z.div_str_pos; lia).
    pose proof (slices_lookup_length chunks (Z.to_nat P)
                  (Z.to_nat (N / P))) as L.
    eexists. split; [exact E|]. split; [|split; [|split]].
    + rewrite concat_app, concat_regular. simpl.
      by rewrite app_nil_r, take_drop.
    + apply Forall_lookup. intros i s Hs.
      apply L in Hs as [Hi Hs]; [|nia..].
      intros ->. simpl in Hs. case_decide; nia.
    + lia.
    + intros _. split.
      * rewrite length_app, length_fmap, length_seq. simpl. lia.
      * intros i s Hs. apply L in Hs as [Hi Hs]; [|nia..].
        rewrite Hs. repeat case_decide; nia.
Qed.

Lemma sliceChunks_partition_witness :
  1 ≤ 2 ∧ Fixture.chunks5 ≠ []
  ∧ ∃ slices,
      Partitioner.sliceChunks 2 Fixture.chunks5 = Some slices
      ∧ concat slices = Fixture.chunks5
      ∧ Forall (λ s, s ≠ []) slices
      ∧ (Z.of_nat (length Fixture.chunks5) < 2 →
         length slices = length Fixture.chunks5
         ∧ Forall (λ s, length s = 1%nat) slices)
      ∧ (2 ≤ Z.of_nat (length Fixture.chunks5) →
         Z.of_nat (length slices) = 2
         ∧ ∀ i s, slices !! i = Some s →
             Z.of_nat (length s)
             = if decide (Z.of_nat i = 2 - 1)
               then Z.of_nat (length Fixture.chunks5) / 2
                    + Z.of_nat (length Fixture.chunks5) mod 2
               else Z.of_nat (length Fixture.chunks5) / 2).
Proof.
  split; [lia|]. split; [discriminate|].
  apply (sliceChunks_partition 2 Fixture.chunks5); [lia|discriminate].
Defined.

(** ** The scan *)

Section ScanFacts.
Context `{Collaborators}.
Variable (pattern : Pattern) (sorted tac : bool) (rev : revision).
Variable (numChunks : Z) (minIndex maxIndex : Z).
Variable (slices : list (list Chunk)).

Local Abbreviation step' :=
  (step pattern sorted tac rev numChunks (length slices) minIndex maxIndex).
Local Abbreviation run' :=
  (run pattern sorted tac rev numChunks (length slices) minIndex maxIndex).
Local Abbreviation step_worker' := (step_worker pattern sorted tac numChunks (length slices)).
Local Abbreviation step_supervisor' :=
  (step_supervisor pattern sorted tac rev numChunks (length slices)
                   minIndex maxIndex).

Lemma run_snoc sched a st : run' (sched ++ [a]) st = step' (run' sched st) a.
Proof. unfold run. by rewrite foldl_snoc. Qed.

(** A property every step preserves holds along every schedule. *)
Lemma run_preserves (I : ScanState → Prop) :
  (∀ st a, I st → I (step' st a)) →
  ∀ sched st, I st → I (run' sched st).
Proof.
  intros Hstep sched. induction sched as [|a sched IH]; intros st Hst.
  - done.
  - apply (IH (step' st a)), Hstep, Hst.
Qed.

(** *** Progress events *)

Lemma progress_inv_step st a :
  progress_inv numChunks st → progress_inv numChunks (step' st a).
Proof.
  intros (counts & Hem & Hsorted & Hall & Hc).
  assert (Hsame : ∀ st', emitted st' = emitted st → count st' = count st →
                          progress_inv numChunks st').
  { intros st' E1 E2. exists counts. by rewrite E1, E2. }
  destruct a as [i| | |]; simpl; [| |by apply Hsame..].
  - destruct (workers st !! i) as [w|]; [|by apply Hsame].
    unfold step_worker.
    destruct (w_pc w) as [[|chunk todo]|n todo|]; simpl;
      repeat case_decide; try destruct (cancelled st); by apply Hsame.
  - unfold step_supervisor.
    destruct (sup st) as [| |received partial|mg c|]; [| | |by apply Hsame..].
    + destruct (countChan st) as [|n rest]; [by apply Hsame|]. simpl.
      assert (Hup : ∀ st', emitted st' = emitted st →
                           count st' = count st + 1 →
                           progress_inv numChunks st').
      { intros st' E1 E2. exists counts. rewrite E1, E2.
        split_and!; [done..| |lia].
        eapply Forall_impl; [exact Hall|]. simpl. lia. }
      case_decide; [by apply Hup|].
      destruct (reqReset st); [by apply Hup|].
      case_decide; [|by apply Hup].
      exists (counts ++ [count st + 1]). simpl.
      rewrite fmap_app, Hem. split_and!; [done| | |lia].
      * apply StronglySorted_app_2; [|done|repeat constructor].
        intros x1 x2 Hx1 ->%list_elem_of_singleton.
        rewrite Forall_forall in Hall. specialize (Hall _ Hx1). lia.
      * apply Forall_app. split.
        -- eapply Forall_impl; [exact Hall|]. simpl. lia.
        -- repeat constructor; lia.
    + destruct (all_returned (workers st)); by apply Hsame.
    + destruct (resultChan st) as [|r rest]; [by apply Hsame|]. simpl.
      case_decide; by apply Hsame.
Qed.

Lemma progress_inv_run sched st :
  progress_inv numChunks st → progress_inv numChunks (run' sched st).
Proof. apply (run_preserves (progress_inv numChunks)), progress_inv_step. Qed.

(** *** The goroutines *)

Lemma worker_inv_flag flag flag' i slice w :
  (flag = true → flag' = true) →
  worker_inv pattern sorted tac flag i slice w →
  worker_inv pattern sorted tac flag' i slice w.
Proof.
  intros Hf [Hi Hw]. split; [done|].
  destruct (w_pc w); [done..|].
  destruct Hw as [?|(? & ? & ?)]; [by left|right; auto].
Qed.

(** A goroutine's step touches neither the other goroutines nor the
    supervisor's variables. *)
Lemma step_worker_frame st w :
  let r := step_worker' st w in
  workers r.1 = workers st ∧ cancelled r.1 = cancelled st
  ∧ sup r.1 = sup st ∧ count r.1 = count st ∧ emitted r.1 = emitted st.
Proof.
  unfold step_worker.
  destruct (w_pc w) as [[|chunk todo]|n todo|]; simpl.
  - by case_decide.
  - by destruct (cancelled st) eqn:E.
  - by case_decide.
  - done.
Qed.

(** Either the step sends nothing on [resultChan], or the goroutine was
    at the end of its loop and sends its sorted matches. *)
Lemma step_worker_resultChan st w :
  let r := step_worker' st w in
  (resultChan r.1 = resultChan st ∧ w_handed r.2 = w_handed w)
  ∨ (w_pc w = WLoop []
     ∧ resultChan r.1
       = resultChan st
         ++ [mkPartial (w_idx w) (sliceMatches_of sorted tac (w_allMatches w))]
     ∧ w_handed r.2 = Some (sliceMatches_of sorted tac (w_allMatches w))).
Proof.
  unfold step_worker.
  destruct (w_pc w) as [[|chunk todo]|n todo|]; simpl.
  - case_decide; simpl; auto.
  - destruct (cancelled st) eqn:E; simpl; auto.
  - case_decide; simpl; auto.
  - auto.
Qed.

Lemma step_worker_inv st w i slice :
  worker_inv pattern sorted tac (cancelled st) i slice w →
  worker_inv pattern sorted tac (cancelled st) i slice (step_worker' st w).2.
Proof.
  intros [Hi Hw]. unfold step_worker.
  destruct (w_pc w) as [[|chunk todo]|n todo|] eqn:Hpc; simpl.
  - destruct Hw as (scored & -> & Hall & Hh).
    case_decide; simpl; [|by split; [|rewrite Hpc; eauto]].
    split; [done|]. simpl. left. rewrite app_nil_r in *.
    unfold handoff. by rewrite Hall.
  - destruct Hw as (scored & -> & Hall & Hh).
    destruct (cancelled st) eqn:Hc; simpl.
    + split; [done|]. simpl. right. split_and!; [done..|].
      exists scored, chunk, todo. by rewrite fmap_app, Hall.
    + split; [done|]. simpl. exists (scored ++ [chunk]).
      by rewrite <- app_assoc, fmap_app, Hall.
  - destruct Hw as (scored & -> & Hall & Hh).
    case_decide; simpl; [|by split; [|rewrite Hpc; eauto]].
    split; [done|]. simpl. eauto.
  - split; [done|]. by rewrite Hpc.
Qed.

Lemma workers_inv_step st a :
  workers_inv pattern sorted tac slices st →
  workers_inv pattern sorted tac slices (step' st a).
Proof.
  intros [Hlen Hws].
  assert (Hsame : ∀ st', workers st' = workers st →
                          (cancelled st = true → cancelled st' = true) →
                          workers_inv pattern sorted tac slices st').
  { intros st' E1 E2. split; [by rewrite E1|]. rewrite E1.
    intros i w Hw. destruct (Hws i w Hw) as (slice & ? & ?).
    exists slice. split; [done|]. by eapply worker_inv_flag. }
  destruct a as [i| | |]; simpl; [| |by apply Hsame..].
  - destruct (workers st !! i) as [w|] eqn:Hw; [|by apply Hsame].
    pose proof (step_worker_frame st w) as (Ews & Ec & _).
    destruct (Hws i w Hw) as (slice & Hslice & Hinv).
    apply step_worker_inv in Hinv.
    destruct (step_worker' st w) as [st1 w1]. simpl in *.
    split; simpl; [by rewrite length_insert, Ews|].
    intros j w' Hj. rewrite Ews in Hj. rewrite Ec.
    destruct (decide (i = j)) as [<-|Hne].
    + rewrite list_lookup_insert_eq in Hj by (by eapply lookup_lt_Some).
      injection Hj as <-. eauto.
    + rewrite list_lookup_insert_ne in Hj by done. auto.
  - unfold step_supervisor.
    destruct (sup st) as [| |received partial|mg c|]; [| | |by apply Hsame..].
    + destruct (countChan st) as [|n rest]; [by apply Hsame|]. simpl.
      case_decide; [by apply Hsame|].
      destruct (reqReset st); [by apply Hsame|].
      case_decide; by apply Hsame.
    + destruct (all_returned (workers st)); by apply Hsame.
    + destruct (resultChan st) as [|r rest]; [by apply Hsame|]. simpl.
      case_decide; by apply Hsame.
Qed.

(** *** The supervisor and the result channel *)

(** A handed result is the hand-off of the goroutine's whole slice. *)
Lemma handed_is_handoff flag i slice w x :
  worker_inv pattern sorted tac flag i slice w →
  w_handed w = Some x →
  x = handoff pattern sorted tac slice.
Proof.
  intros [_ Hw] Hx. destruct (w_pc w).
  - destruct Hw as (? & ? & ? & ?). congruence.
  - destruct Hw as (? & ? & ? & ?). congruence.
  - destruct Hw as [[? ?]|[? ?]]; congruence.
Qed.

(** Once every partition below [n] is received, the partial results are
    the hand-offs in slice order. *)
Lemma all_received (R : gset nat) (partial : list (list Result)) :
  (∀ i, i ∈ R → (i < length slices)%nat) →
  size R = length slices →
  length partial = length slices →
  (∀ i slice, slices !! i = Some slice →
     partial !! i
     = Some (if decide (i ∈ R) then handoff pattern sorted tac slice else [])) →
  partial = handoff pattern sorted tac <$> slices.
Proof.
  intros Hlt Hsize Hlen Hlook.
  assert (HR : R = set_seq 0 (length slices)).
  { apply set_subseteq_size_eq.
    - intros i Hi. apply elem_of_set_seq. split; [lia|]. simpl. auto.
    - rewrite size_set_seq. lia. }
  apply list_eq. intros i. rewrite list_lookup_fmap.
  destruct (slices !! i) as [slice|] eqn:Hs; simpl.
  - rewrite (Hlook i slice Hs). rewrite decide_True; [done|].
    rewrite HR. apply elem_of_set_seq. apply lookup_lt_Some in Hs. lia.
  - apply lookup_ge_None. apply lookup_ge_None in Hs. lia.
Qed.

Lemma chan_inv_step st a :
  scan_inv pattern sorted tac rev numChunks minIndex maxIndex slices st →
  chan_inv pattern sorted tac rev numChunks minIndex maxIndex slices
           (step' st a).
Proof.
  intros [[Hlen Hws] (R & Hnd & Hchan & HR & Hcnt & Hsup)].
  assert (Hsame : ∀ st', workers st' = workers st →
                          resultChan st' = resultChan st →
                          sup st' = sup st → count st' = count st →
    chan_inv pattern sorted tac rev numChunks minIndex maxIndex slices st').
  { intros st' E1 E2 E3 E4. exists R. unfold sup_inv.
    by rewrite E1, E2, E3, E4. }
  destruct a as [i| | |]; simpl; [| |by apply Hsame..].
  - (* a goroutine moves *)
    destruct (workers st !! i) as [w|] eqn:Hw; [|by apply Hsame].
    pose proof (step_worker_frame st w) as (Ews & Ec & Es & En & _).
    pose proof (step_worker_resultChan st w) as Hrc.
    destruct (Hws i w Hw) as (slice & Hslice & Hinv).
    destruct (step_worker' st w) as [st1 w1]. simpl in *.
    assert (Hi : (i < length (workers st))%nat) by (by eapply lookup_lt_Some).
    exists R. unfold sup_inv. simpl. rewrite Es, En, Ews.
    destruct Hrc as [[Erc Eh]|(Hpc & Erc & Eh)]; rewrite Erc.
    + split_and!; [done| | |done..].
      * intros r Hr. destruct (Hchan r Hr) as (HrR & w' & Hw' & Hh).
        split; [done|]. destruct (decide (i = pr_index r)) as [->|Hne].
        -- rewrite list_lookup_insert_eq by done. exists w1.
           split; [done|]. congruence.
        -- rewrite list_lookup_insert_ne by done. eauto.
      * intros j Hj. destruct (HR j Hj) as (w' & Hw' & Hh).
        destruct (decide (i = j)) as [->|Hne].
        -- rewrite list_lookup_insert_eq by done. exists w1.
           split; [done|]. congruence.
        -- rewrite list_lookup_insert_ne by done. eauto.
    + destruct Hinv as [Hidx Hinv]. rewrite Hpc in Hinv.
      destruct Hinv as (scored & _ & _ & Hnone). rewrite Hidx in *.
      assert (Hfresh : ∀ r, r ∈ resultChan st → pr_index r ≠ i).
      { intros r Hr E. destruct (Hchan r Hr) as (_ & w' & Hw' & Hh).
        rewrite E in Hw'. congruence. }
      split_and!; [| | |done..].
      * rewrite fmap_app. simpl. apply NoDup_app. split_and!; [done| |].
        -- intros j Hj ->%list_elem_of_singleton.
           apply list_elem_of_fmap in Hj as (r & -> & Hr).
           by eapply Hfresh.
        -- apply NoDup_singleton.
      * intros r [Hr| ->%list_elem_of_singleton]%elem_of_app.
        -- destruct (Hchan r Hr) as (HrR & w' & Hw' & Hh).
           split; [done|]. rewrite list_lookup_insert_ne; [eauto|].
           intros E. by eapply Hfresh.
        -- simpl. split.
           ++ intros Hin. destruct (HR i Hin) as (w' & Hw' & [x Hx]).
              congruence.
           ++ rewrite list_lookup_insert_eq by done. eauto.
      * intros j Hj. destruct (HR j Hj) as (w' & Hw' & Hh).
        rewrite list_lookup_insert_ne; [eauto|].
        intros ->. destruct Hh as [x Hx]. congruence.
  - (* the supervisor moves *)
    unfold step_supervisor. unfold sup_inv in Hsup.
    destruct (sup st) as [| |received partial|mg c|] eqn:Esup;
      [| | |apply Hsame; by rewrite ?Esup..].
    + destruct (countChan st) as [|n rest] eqn:Ecc;
        [apply Hsame; by rewrite ?Esup|].
      subst R.
      assert (Hempty : ∀ i : nat, i ∈ (∅ : gset nat) →
                ∃ w, workers st !! i = Some w ∧ is_Some (w_handed w))
        by set_solver.
      case_decide as Hn; [|destruct (reqReset st); [|case_decide]]; simpl.
      * exists ∅. unfold sup_inv, set_sup, collect. simpl.
        case_decide as Hz; simpl.
        -- split_and!; try done. unfold scan_merger.
           symmetry in Hz. apply nil_length_inv in Hz. by rewrite Hz.
        -- split_and!; try done; [by rewrite length_replicate|].
           intros i slice Hs. rewrite decide_False by set_solver.
           apply lookup_replicate_2. by eapply lookup_lt_Some.
      * exists ∅. unfold sup_inv. simpl. by split_and!.
      * exists ∅. unfold sup_inv. simpl. rewrite ?Esup. by split_and!.
      * exists ∅. unfold sup_inv. simpl. rewrite ?Esup. split_and!; auto.
    + destruct (all_returned (workers st));
        [|apply Hsame; by rewrite ?Esup].
      exists R. unfold sup_inv. simpl. by split_and!.
    + destruct (resultChan st) as [|r rest] eqn:Erc;
        [apply Hsame; by rewrite ?Esup|].
      destruct Hsup as (Hsize & Hplen & Hpart). simpl.
      destruct (Hchan r ltac:(left)) as (HrR & w & Hw & Hh).
      destruct (Hws _ w Hw) as (slice & Hslice & Hinv).
      pose proof (handed_is_handoff _ _ _ _ _ Hinv Hh) as Hm.
      assert (Hidx : (pr_index r < length partial)%nat).
      { rewrite Hplen, <- Hlen. by eapply lookup_lt_Some. }
      rewrite decide_True by done.
      simpl in Hnd. apply NoDup_cons in Hnd as [Hnotin Hnd].
      assert (Hpart' : ∀ i slice', slices !! i = Some slice' →
        <[pr_index r := pr_matches r]> partial !! i
        = Some (if decide (i ∈ R ∪ {[pr_index r]})
                then handoff pattern sorted tac slice' else [])).
      { intros i slice' Hs. destruct (decide (pr_index r = i)) as [<-|Hne].
        - rewrite list_lookup_insert_eq by done.
          rewrite decide_True
            by (apply elem_of_union; right; by apply elem_of_singleton).
          congruence.
        - rewrite list_lookup_insert_ne by done. rewrite (Hpart i slice' Hs).
          destruct (decide (i ∈ R)).
          + by rewrite decide_True by (apply elem_of_union; by left).
          + by rewrite decide_False
              by (intros [?|?%elem_of_singleton]%elem_of_union; done). }
      assert (Hsize' : size (R ∪ {[pr_index r]}) = S received).
      { rewrite size_union by (by apply disjoint_singleton_r).
        rewrite size_singleton. lia. }
      assert (HR' : ∀ i, i ∈ R ∪ {[pr_index r]} →
                         ∃ w, workers st !! i = Some w ∧ is_Some (w_handed w)).
      { intros i [Hi| ->%elem_of_singleton]%elem_of_union; [auto|].
        exists w. split; [done|]. by rewrite Hh. }
      exists (R ∪ {[pr_index r]}). unfold sup_inv. simpl.
      split_and!; [done| |done| |].
      * intros r' Hr'. destruct (Hchan r' ltac:(by right)) as (? & ?).
        split; [|done]. intros [?|E%elem_of_singleton]%elem_of_union;
          [done|]. apply Hnotin. apply list_elem_of_fmap. eauto.
      * unfold collect. by case_decide.
      * unfold collect. case_decide as Hk; simpl.
        -- split_and!; [done| |done]. unfold scan_merger. do 2 f_equal.
           apply all_received with (R := R ∪ {[pr_index r]}).
           ++ intros i Hi. destruct (HR' i Hi) as (w' & Hw' & _).
              rewrite <- Hlen. by eapply lookup_lt_Some.
           ++ lia.
           ++ by rewrite length_insert.
           ++ done.
        -- split_and!; [done|by rewrite length_insert|done].
Qed.

Lemma scan_inv_step st a :
  scan_inv pattern sorted tac rev numChunks minIndex maxIndex slices st →
  scan_inv pattern sorted tac rev numChunks minIndex maxIndex slices
           (step' st a).
Proof.
  intros Hinv. split.
  - apply workers_inv_step, Hinv.
  - by apply chan_inv_step.
Qed.

Lemma scan_inv_run sched st :
  scan_inv pattern sorted tac rev numChunks minIndex maxIndex slices st →
  scan_inv pattern sorted tac rev numChunks minIndex maxIndex slices
           (run' sched st).
Proof. apply (run_preserves (scan_inv _ _ _ _ _ _ _ _)), scan_inv_step. Qed.

End ScanFacts.

(** *** What [scan] does *)

Section ScanTheorems.
Context `{Collaborators}.

(** The goroutines [spawn] starts: one per slice, at the head of its
    loop. *)
Lemma spawn_workers slices : ∀ idx slab slab' ws,
  spawn idx slab slices = Some (slab', ws) →
  length ws = length slices
  ∧ ∀ i w, ws !! i = Some w →
      ∃ slice, slices !! i = Some slice
        ∧ w = mkWorker (idx + i) [] 0 None (WLoop slice).
Proof.
  induction slices as [|chunks slices IH]; intros idx slab slab' ws Hsp;
    simpl in Hsp.
  - injection Hsp as <- <-. split; [done|]. intros i w Hw. done.
  - destruct (slab !! idx); [|done].
    destruct (spawn (S idx) (<[idx:=true]> slab) slices)
      as [[slab1 ws1]|] eqn:E; [|done].
    simpl in Hsp. injection Hsp as <- <-.
    destruct (IH _ _ _ _ E) as [Hlen Hws]. split; [simpl; lia|].
    intros [|i] w Hw; simpl in *.
    + injection Hw as <-. exists chunks. by rewrite Nat.add_0_r.
    + destruct (Hws i w Hw) as (slice & ? & ->). exists slice.
      split; [done|]. f_equal. lia.
Qed.

Lemma scan_inv_start pattern sorted tac rev numChunks minIndex maxIndex
    slices slab slab' ws :
  spawn 0 slab slices = Some (slab', ws) →
  scan_inv pattern sorted tac rev numChunks minIndex maxIndex slices
           (scan_start ws).
Proof.
  intros [Hlen Hws]%spawn_workers. split.
  - split; [done|]. simpl. intros i w Hw.
    destruct (Hws i w Hw) as (slice & Hs & ->). exists slice.
    split; [done|]. split; [done|]. simpl. by exists [].
  - exists ∅. unfold sup_inv. simpl.
    split_and!; [constructor| |set_solver|done..].
    intros r Hr. by apply elem_of_nil in Hr.
Qed.

Lemma progress_inv_start numChunks ws :
  progress_inv numChunks (scan_start ws).
Proof. exists []. simpl. split_and!; [done|constructor|constructor|lia]. Qed.

(** With no chunk, [scan] returns an empty merger at once. *)
Lemma scan_no_chunks m request sched :
  req_chunks request = [] →
  scan m request sched
  = Some (m, returned_at_once (EmptyMerger (req_revision request))).
Proof. intros E. unfold scan. by rewrite E. Qed.

(** With an empty pattern, [scan] returns a pass-through merger at once. *)
Lemma scan_empty_pattern m request sched :
  req_chunks request ≠ [] →
  IsEmpty (req_pattern request) = true →
  scan m request sched
  = Some (m, returned_at_once
               (PassMerger (req_chunks request) (m_tac m)
                           (req_revision request))).
Proof.
  intros Hne E. unfold scan. rewrite E.
  rewrite decide_False; [done|].
  destruct (req_chunks request); simpl; [done|lia].
Qed.

(** Otherwise [scan] reads the first item's index, slices the chunks,
    starts the goroutines and runs the schedule. *)
Lemma scan_started m request sched m' st :
  req_chunks request ≠ [] →
  IsEmpty (req_pattern request) = false →
  scan m request sched = Some (m', st) →
  ∃ minIndex maxIndex slices slab ws,
    (∃ chunk0 chunkN,
       req_chunks request !! 0%nat = Some chunk0
       ∧ item0_Index chunk0 = Some minIndex
       ∧ req_chunks request
           !! Z.to_nat (Z.of_nat (length (req_chunks request)) - 1)
         = Some chunkN
       ∧ maxIndex = lastIndex chunkN minIndex)
    ∧ Partitioner.sliceChunks (m_partitions m) (req_chunks request)
      = Some slices
    ∧ spawn 0 (m_slab m) slices = Some (slab, ws)
    ∧ st = run (req_pattern request)
               (m_sort m && sortable (req_pattern request)) (m_tac m)
               (req_revision request)
               (Z.of_nat (length (req_chunks request))) (length slices)
               minIndex maxIndex sched (scan_start ws)
    ∧ m' = mkMatcher (m_cache m) (m_sort m) (m_tac m)
                     (m_eventBox m ++ emitted st) (m_partitions m) slab
                     (m_mergerCache m) (m_revision m).
Proof.
  intros Hne E. unfold scan. rewrite E.
  rewrite decide_False by (destruct (req_chunks request); simpl; [done|lia]).
  intros Hs.
  destruct (req_chunks request !! 0%nat) as [chunk0|] eqn:Hc0; [|done].
  simpl in Hs.
  destruct (item0_Index chunk0) as [minIndex|] eqn:Hmin; [|done].
  simpl in Hs.
  destruct (req_chunks request !! Z.to_nat _) as [chunkN|] eqn:HN; [|done].
  simpl in Hs.
  destruct (Partitioner.sliceChunks _ _) as [slices|] eqn:Hsl; [|done].
  simpl in Hs.
  destruct (spawn 0 (m_slab m) slices) as [[slab ws]|] eqn:Hsp; [|done].
  simpl in Hs. injection Hs as <- <-.
  exists minIndex, (lastIndex chunkN minIndex), slices, slab, ws.
  split_and!; [|done..]. by exists chunk0, chunkN.
Qed.

(** [scan] changes the matcher only in its slab slots and by the events
    it sets. *)
Lemma scan_frame m request sched m' st :
  scan m request sched = Some (m', st) →
  m_cache m' = m_cache m ∧ m_sort m' = m_sort m ∧ m_tac m' = m_tac m
  ∧ m_partitions m' = m_partitions m
  ∧ m_mergerCache m' = m_mergerCache m ∧ m_revision m' = m_revision m
  ∧ m_eventBox m' = m_eventBox m ++ emitted st.
Proof.
  intros Hs. destruct (decide (req_chunks request = [])) as [E|Hne].
  { rewrite scan_no_chunks in Hs by done. injection Hs as <- <-.
    simpl. by rewrite app_nil_r. }
  destruct (IsEmpty (req_pattern request)) eqn:E.
  { rewrite scan_empty_pattern in Hs by done. injection Hs as <- <-.
    simpl. by rewrite app_nil_r. }
  apply scan_started in Hs as (? & ? & ? & ? & ? & _ & _ & _ & _ & ->); done.
Qed.

(** The events a scan sets are progress events over the number of
    chunks, with strictly increasing counts. *)
Lemma scan_progress m request sched m' st :
  scan m request sched = Some (m', st) →
  progress_inv (Z.of_nat (length (req_chunks request))) st.
Proof.
  intros Hs. destruct (decide (req_chunks request = [])) as [E|Hne].
  { rewrite scan_no_chunks in Hs by done. injection Hs as <- <-.
    exists []. simpl. split_and!; [done|constructor|constructor|lia]. }
  destruct (IsEmpty (req_pattern request)) eqn:E.
  { rewrite scan_empty_pattern in Hs by done. injection Hs as <- <-.
    exists []. simpl. split_and!; [done|constructor|constructor|lia]. }
  apply scan_started in Hs as (? & ? & ? & ? & ws & _ & _ & _ & -> & _);
    [|done..].
  apply progress_inv_run, progress_inv_start.
Qed.

(** A scan that went through its goroutines is in a state that
    satisfies the invariant of its slices. *)
Lemma scan_invariant m request sched m' st slices :
  req_chunks request ≠ [] →
  IsEmpty (req_pattern request) = false →
  scan m request sched = Some (m', st) →
  Partitioner.sliceChunks (m_partitions m) (req_chunks request)
  = Some slices →
  ∃ minIndex maxIndex,
    scan_inv (req_pattern request)
             (m_sort m && sortable (req_pattern request)) (m_tac m)
             (req_revision request)
             (Z.of_nat (length (req_chunks request))) minIndex maxIndex
             slices st.
Proof.
  intros Hne E Hs Hsl.
  apply scan_started in Hs
    as (minIndex & maxIndex & slices' & slab & ws & _ & Hsl' & Hsp & -> & _);
    [|done..].
  assert (slices' = slices) as -> by congruence.
  exists minIndex, maxIndex.
  eapply scan_inv_run, scan_inv_start, Hsp.
Qed.

(** The ratio [count/numChunks] grows with [count]. *)
Lemma progress_ratio_mono (c1 c2 n : Z) q1 q2 :
  0 < n → c1 ≤ c2 →
  progress_ratio (EvtSearchProgress c1 n) = Some q1 →
  progress_ratio (EvtSearchProgress c2 n) = Some q2 →
  Qle q1 q2.
Proof.
  intros Hn Hc [= <-] [= <-]. unfold Qdiv.
  apply Qmult_le_compat_r.
  - by rewrite <- Zle_Qle.
  - apply Qinv_le_0_compat. replace 0%Q with (inject_Z 0) by done.
    rewrite <- Zle_Qle. lia.
Qed.

(** C5. For a request with zero chunks, whatever the schedule, [scan]
    returns at once with an empty merger tagged with the request's
    revision and reports not-cancelled; no goroutine is started, no chunk
    is scored and no event is set. *)
Theorem scan_zero_chunks_empty_merger m request sched :
  req_chunks request = [] →
  ∃ st mg,
    scan m request sched = Some (m, st)
    ∧ sup st = SReturned (Some mg) false
    ∧ built_by mg = EmptyMerger (req_revision request)
    ∧ merger_revision mg = req_revision request
    ∧ merger_length mg = 0%nat
    ∧ workers st = [] ∧ scored st = 0%nat ∧ emitted st = [].
Proof.
  intros E. rewrite scan_no_chunks by done.
  eexists _, _. split; [done|]. by split_and!.
Qed.

(** C4. For a request with an empty pattern and a non-empty chunk
    sequence, whatever the schedule, [scan] returns at once, not
    cancelled, with a pass-through merger over the request's chunks that
    is tagged with the request's revision and holds every item of the
    chunks, in original order when tac is off and reversed when it is on;
    no goroutine is started and the pattern scores no chunk. *)
Theorem scan_empty_pattern_pass_merger m request sched :
  req_chunks request ≠ [] →
  IsEmpty (req_pattern request) = true →
  ∃ st mg,
    scan m request sched = Some (m, st)
    ∧ sup st = SReturned (Some mg) false
    ∧ built_by mg
      = PassMerger (req_chunks request) (m_tac m) (req_revision request)
    ∧ merger_revision mg = req_revision request
    ∧ pass_items (req_chunks request) (m_tac m)
      = (if m_tac m
         then reverse (concat (chunk_items <$> req_chunks request))
         else concat (chunk_items <$> req_chunks request))
    ∧ workers st = [] ∧ scored st = 0%nat.
Proof.
  intros Hne E. rewrite scan_empty_pattern by done.
  eexists _, _. split; [done|]. by split_and!.
Qed.

(** C7, as the code has it. A goroutine that returned has either run
    through its whole slice and handed over the matches of all its
    chunks, concatenated and, when [m.sort] is set and the pattern is
    sortable, sorted (by [ByRelevanceTac] under tac, by [ByRelevance]
    otherwise); or it read the cancellation flag as set right after
    scoring a chunk and returned at once, having handed over nothing. *)
Theorem worker_hands_over_unless_cancelled
    m request sched m' st slices i slice w :
  scan m request sched = Some (m', st) →
  Partitioner.sliceChunks (m_partitions m) (req_chunks request)
  = Some slices →
  slices !! i = Some slice →
  workers st !! i = Some w →
  w_pc w = WReturned →
  let pattern := req_pattern request in
  let all := concat (Match pattern <$> slice) in
  (w_handed w
   = Some (if m_sort m && sortable pattern
           then (if m_tac m then sort_ByRelevanceTac all
                 else sort_ByRelevance all)
           else all)
   ∧ w_allMatches w = Match pattern <$> slice)
  ∨ (w_handed w = None ∧ cancelled st = true
     ∧ ∃ scored chunk todo,
         slice = scored ++ chunk :: todo
         ∧ w_allMatches w = Match pattern <$> (scored ++ [chunk])).
Proof.
  intros Hs Hsl Hslice Hw Hpc pattern all.
  destruct (decide (req_chunks request = [])) as [E|Hne].
  { rewrite scan_no_chunks in Hs by done. by injection Hs as <- <-. }
  destruct (IsEmpty (req_pattern request)) eqn:E.
  { rewrite scan_empty_pattern in Hs by done. by injection Hs as <- <-. }
  destruct (scan_invariant _ _ _ _ _ _ Hne E Hs Hsl)
    as (minIndex & maxIndex & [[_ Hws] _]).
  destruct (Hws i w Hw) as (slice' & Hslice' & _ & Hinv).
  assert (slice' = slice) as -> by congruence.
  rewrite Hpc in Hinv. exact Hinv.
Qed.

(** C8. Two scans of one request by one matcher that both return
    uncancelled return equal mergers, whatever their schedules: when
    goroutines ran, the merger is built from the hand-offs of the slices
    listed in slice order. *)
Theorem scan_merger_independent_of_schedule
    m request sched1 sched2 m1 st1 mg1 m2 st2 mg2 :
  scan m request sched1 = Some (m1, st1) →
  scan m request sched2 = Some (m2, st2) →
  sup st1 = SReturned (Some mg1) false →
  sup st2 = SReturned (Some mg2) false →
  mg1 = mg2
  ∧ (req_chunks request ≠ [] → IsEmpty (req_pattern request) = false →
     ∃ slices minIndex maxIndex,
       Partitioner.sliceChunks (m_partitions m) (req_chunks request)
       = Some slices
       ∧ mg1 = fresh_merger
           (NewMerger (req_pattern request)
              ((λ slice,
                  sliceMatches_of
                    (m_sort m && sortable (req_pattern request)) (m_tac m)
                    (Match (req_pattern request) <$> slice)) <$> slices)
              (m_sort m && sortable (req_pattern request)) (m_tac m)
              (req_revision request) minIndex maxIndex)).
Proof.
  intros Hs1 Hs2 Hr1 Hr2.
  destruct (decide (req_chunks request = [])) as [E|Hne].
  { rewrite scan_no_chunks in Hs1, Hs2 by done.
    injection Hs1 as <- <-. injection Hs2 as <- <-. simpl in *.
    split; [congruence|done]. }
  destruct (IsEmpty (req_pattern request)) eqn:E.
  { rewrite scan_empty_pattern in Hs1, Hs2 by done.
    injection Hs1 as <- <-. injection Hs2 as <- <-. simpl in *.
    split; [congruence|done]. }
  apply scan_started in Hs1
    as (minIndex & maxIndex & slices & slab & ws
        & (c0 & cN & Hc0 & Hmin & HcN & ->) & Hsl & Hsp & -> & _);
    [|done..].
  apply scan_started in Hs2
    as (minIndex' & maxIndex' & slices' & slab' & ws'
        & (c0' & cN' & Hc0' & Hmin' & HcN' & ->) & Hsl' & Hsp' & -> & _);
    [|done..].
  assert (slices' = slices) as -> by congruence.
  assert (c0' = c0) as -> by congruence.
  assert (cN' = cN) as -> by congruence.
  assert (minIndex' = minIndex) as -> by congruence.
  assert (ws' = ws) as -> by congruence.
  pose proof (scan_inv_start (req_pattern request)
                (m_sort m && sortable (req_pattern request)) (m_tac m)
                (req_revision request)
                (Z.of_nat (length (req_chunks request))) minIndex
                (lastIndex cN minIndex) _ _ _ _ Hsp) as Hinv.
  pose proof (scan_inv_run _ _ _ _ _ _ _ _ sched1 _ Hinv)
    as [_ (R1 & _ & _ & _ & _ & HR1)].
  pose proof (scan_inv_run _ _ _ _ _ _ _ _ sched2 _ Hinv)
    as [_ (R2 & _ & _ & _ & _ & HR2)].
  unfold sup_inv in HR1, HR2. rewrite Hr1 in HR1. rewrite Hr2 in HR2.
  destruct HR1 as (_ & -> & _). destruct HR2 as (_ & -> & _).
  split; [done|]. intros _ _.
  by exists slices, minIndex, (lastIndex cN minIndex).
Qed.

Lemma StronglySorted_lookup_lt {A} (R : relation A) (l : list A) :
  StronglySorted R l →
  ∀ i j x y, (i < j)%nat → l !! i = Some x → l !! j = Some y → R x y.
Proof.
  induction 1 as [|a l Hl IH Ha]; intros i j x y Hij Hi Hj; [done|].
  destruct j as [|j]; [lia|]. simpl in Hj. destruct i as [|i]; simpl in Hi.
  - injection Hi as <-. rewrite Forall_forall in Ha. apply Ha.
    by eapply list_elem_of_lookup_2.
  - eapply (IH i j); [lia|done..].
Qed.

(** The progress events a scan sets carry [count/numChunks] over the
    fixed number of chunks with strictly increasing counts, so the ratios
    never decrease; they are what the scan adds to the event box; and a
    scan of a non-empty pattern that returns a merger has counted every
    chunk, its [count] being [numChunks] at the return. *)
Lemma scan_progress_facts m request sched m' st :
  scan m request sched = Some (m', st) →
  let numChunks := Z.of_nat (length (req_chunks request)) in
  (∃ counts,
     emitted st = (λ c, EvtSearchProgress c numChunks) <$> counts
     ∧ StronglySorted Z.lt counts)
  ∧ (∀ i j e1 e2 q1 q2,
       (i ≤ j)%nat →
       emitted st !! i = Some e1 → emitted st !! j = Some e2 →
       progress_ratio e1 = Some q1 → progress_ratio e2 = Some q2 →
       Qle q1 q2)
  ∧ m_eventBox m' = m_eventBox m ++ emitted st
  ∧ (IsEmpty (req_pattern request) = false →
     ∀ mg c, sup st = SReturned (Some mg) c → count st = numChunks).
Proof.
  intros Hs numChunks.
  destruct (scan_progress _ _ _ _ _ Hs) as (counts & Hem & Hsorted & Hall & _).
  fold numChunks in Hem.
  split_and!.
  - by exists counts.
  - intros i j e1 e2 q1 q2 Hij H1 H2 Hq1 Hq2.
    rewrite Hem, list_lookup_fmap in H1, H2.
    destruct (counts !! i) as [c1|] eqn:Hc1; [|done].
    destruct (counts !! j) as [c2|] eqn:Hc2; [|done].
    simpl in *. injection H1 as <-. injection H2 as <-.
    assert (0 < numChunks).
    { rewrite Forall_forall in Hall.
      pose proof (Hall c1 (list_elem_of_lookup_2 _ _ _ Hc1)) as Hb.
      destruct (decide (req_chunks request = [])) as [E|Hne].
      - rewrite scan_no_chunks in Hs by done. injection Hs as _ <-.
        simpl in Hb. lia.
      - subst numChunks. destruct (req_chunks request); simpl; [done|lia]. }
    eapply progress_ratio_mono; [done| |done..].
    destruct (decide (i = j)) as [->|Hne]; [by simplify_eq|].
    apply Z.lt_le_incl.
    eapply (StronglySorted_lookup_lt _ _ Hsorted i j); [lia|done..].
  - by apply scan_frame in Hs as (_ & _ & _ & _ & _ & _ & ?).
  - intros E mg c Hr.
    destruct (decide (req_chunks request = [])) as [E0|Hne].
    { rewrite scan_no_chunks in Hs by done. injection Hs as _ <-.
      subst numChunks. by rewrite E0. }
    apply scan_started in Hs
      as (minIndex & maxIndex & slices & slab & ws & _ & _ & Hsp & -> & _);
      [|done..].
    pose proof (scan_inv_start (req_pattern request)
                  (m_sort m && sortable (req_pattern request)) (m_tac m)
                  (req_revision request)
                  (Z.of_nat (length (req_chunks request))) minIndex maxIndex
                  _ _ _ _ Hsp) as Hinv.
    pose proof (scan_inv_run _ _ _ _ _ _ _ _ sched _ Hinv)
      as [_ (R & _ & _ & _ & _ & HR)].
    unfold sup_inv in HR. rewrite Hr in HR. by destruct HR as (_ & _ & ?).
Qed.

End ScanTheorems.

(** *** The scan on the concrete instance *)

Lemma scan_zero_chunks_empty_merger_witness :
  req_chunks Fixture.request_no_chunks = []
  ∧ ∃ st mg,
      scan Fixture.matcher0 Fixture.request_no_chunks Fixture.sched_in_order
      = Some (Fixture.matcher0, st)
      ∧ sup st = SReturned (Some mg) false
      ∧ built_by mg = EmptyMerger (req_revision Fixture.request_no_chunks)
      ∧ merger_revision mg = req_revision Fixture.request_no_chunks
      ∧ merger_length mg = 0%nat
      ∧ workers st = [] ∧ scored st = 0%nat ∧ emitted st = [].
Proof.
  split; [reflexivity|].
  apply (scan_zero_chunks_empty_merger Fixture.matcher0
           Fixture.request_no_chunks Fixture.sched_in_order).
  reflexivity.
Defined.

Lemma scan_empty_pattern_pass_merger_witness :
  req_chunks Fixture.request_empty_query ≠ []
  ∧ IsEmpty (req_pattern Fixture.request_empty_query) = true
  ∧ ∃ st mg,
      scan Fixture.matcher0 Fixture.request_empty_query
           Fixture.sched_in_order
      = Some (Fixture.matcher0, st)
      ∧ sup st = SReturned (Some mg) false
      ∧ built_by mg
        = PassMerger (req_chunks Fixture.request_empty_query)
                     (m_tac Fixture.matcher0)
                     (req_revision Fixture.request_empty_query)
      ∧ merger_revision mg = req_revision Fixture.request_empty_query
      ∧ pass_items (req_chunks Fixture.request_empty_query)
                   (m_tac Fixture.matcher0)
        = (if m_tac Fixture.matcher0
           then reverse (concat (chunk_items
                                   <$> req_chunks Fixture.request_empty_query))
           else concat (chunk_items
                          <$> req_chunks Fixture.request_empty_query))
      ∧ workers st = [] ∧ scored st = 0%nat.
Proof.
  split; [discriminate|]. split; [reflexivity|].
  apply (scan_empty_pattern_pass_merger Fixture.matcher0
           Fixture.request_empty_query Fixture.sched_in_order);
    [discriminate|reflexivity].
Defined.

(** C7 as the spec states it fails: under [sched_reset] goroutine 1
    reads the flag as set after its chunk and returns, having handed
    nothing to the supervisor. *)
Lemma cancelled_worker_hands_nothing :
  ¬ (∀ (m : Matcher) request sched m' st (i : nat) w,
       scan m request sched = Some (m', st) →
       workers st !! i = Some w →
       w_pc w = WReturned →
       is_Some (w_handed w)).
Proof.
  intros Hclaim.
  edestruct Hclaim
    with (m := Fixture.matcher0) (request := Fixture.request_ab)
         (sched := Fixture.sched_reset) (i := 1%nat) as [x Hx].
  - vm_compute. reflexivity.
  - vm_compute. reflexivity.
  - reflexivity.
  - discriminate Hx.
Qed.

Lemma worker_hands_over_unless_cancelled_witness :
  ∃ m' st slices slice w,
    scan Fixture.matcher0 Fixture.request_ab Fixture.sched_reset
    = Some (m', st)
    ∧ Partitioner.sliceChunks (m_partitions Fixture.matcher0)
                              (req_chunks Fixture.request_ab)
      = Some slices
    ∧ slices !! 0%nat = Some slice
    ∧ workers st !! 0%nat = Some w
    ∧ w_pc w = WReturned
    ∧ ((w_handed w
        = Some (if m_sort Fixture.matcher0
                   && sortable (req_pattern Fixture.request_ab)
                then (if m_tac Fixture.matcher0
                      then sort_ByRelevanceTac
                             (concat (Match (req_pattern Fixture.request_ab)
                                        <$> slice))
                      else sort_ByRelevance
                             (concat (Match (req_pattern Fixture.request_ab)
                                        <$> slice)))
                else concat (Match (req_pattern Fixture.request_ab)
                               <$> slice))
        ∧ w_allMatches w = Match (req_pattern Fixture.request_ab) <$> slice)
       ∨ (w_handed w = None ∧ cancelled st = true
          ∧ ∃ scored chunk todo,
              slice = scored ++ chunk :: todo
              ∧ w_allMatches w
                = Match (req_pattern Fixture.request_ab)
                    <$> (scored ++ [chunk]))).
Proof.
  eexists _, _, _, _, _.
  split; [vm_compute; reflexivity|].
  split; [vm_compute; reflexivity|].
  split; [reflexivity|]. split; [reflexivity|]. split; [reflexivity|].
  eapply (worker_hands_over_unless_cancelled Fixture.matcher0
            Fixture.request_ab Fixture.sched_reset) with (i := 0%nat).
  - vm_compute. reflexivity.
  - vm_compute. reflexivity.
  - reflexivity.
  - reflexivity.
  - reflexivity.
Defined.

Lemma scan_merger_independent_of_schedule_witness :
  ∃ m1 st1 mg1 m2 st2 mg2,
    scan Fixture.matcher0 Fixture.request_ab Fixture.sched_in_order
    = Some (m1, st1)
    ∧ scan Fixture.matcher0 Fixture.request_ab Fixture.sched_reversed
      = Some (m2, st2)
    ∧ sup st1 = SReturned (Some mg1) false
    ∧ sup st2 = SReturned (Some mg2) false
    ∧ resultChan st1 = [] ∧ resultChan st2 = []
    ∧ mg1 = mg2.
Proof.
  eexists _, _, _, _, _, _.
  split; [vm_compute; reflexivity|].
  split; [vm_compute; reflexivity|].
  split; [reflexivity|]. split; [reflexivity|].
  split; [reflexivity|]. split; [reflexivity|].
  eapply (scan_merger_independent_of_schedule Fixture.matcher0
            Fixture.request_ab Fixture.sched_in_order Fixture.sched_reversed).
  - vm_compute. reflexivity.
  - vm_compute. reflexivity.
  - reflexivity.
  - reflexivity.
Defined.

(** *** A schedule under which the scan completes

    Every goroutine runs to its end in turn, then the supervisor counts
    and collects.  No reset is posted. *)

Section ScanCompletes.
Context `{Collaborators}.
Variable (pattern : Pattern) (sorted tac : bool) (rev : revision).
Variable (minIndex maxIndex : Z).
Variable (slices : list (list Chunk)).

Local Abbreviation numChunks := (Z.of_nat (length (concat slices))).
Local Abbreviation run' :=
  (run pattern sorted tac rev numChunks (length slices) minIndex maxIndex).

Lemma run_app s1 s2 st : run' (s1 ++ s2) st = run' s2 (run' s1 st).
Proof. unfold run. by rewrite foldl_app. Qed.

Lemma run_cons a s st :
  run' (a :: s) st
  = run' s (step pattern sorted tac rev numChunks (length slices)
                 minIndex maxIndex st a).
Proof. done. Qed.

(** The three steps of a goroutine, when nothing is cancelled and the
    channels have room. *)
Lemma step_score st i w chunk todo :
  workers st !! i = Some w →
  w_pc w = WLoop (chunk :: todo) →
  cancelled st = false →
  step pattern sorted tac rev numChunks (length slices) minIndex maxIndex
       st (RunWorker i)
  = mkScan
      (<[i := mkWorker (w_idx w)
                (w_allMatches w ++ [Match pattern chunk])
                (w_count w + Z.of_nat (length (Match pattern chunk)))
                (w_handed w)
                (WSend (Z.of_nat (length (Match pattern chunk))) todo)]>
         (workers st))
      (sup st) (count st) (matchCount st) (cancelled st) (countChan st)
      (resultChan st) (reqReset st) (clock st) (emitted st)
      (S (scored st)).
Proof.
  intros Hw Hpc Hc. simpl. rewrite Hw. unfold step_worker.
  by rewrite Hpc, Hc.
Qed.

Lemma step_send st i w n todo :
  workers st !! i = Some w →
  w_pc w = WSend n todo →
  (length (countChan st) < length (concat slices))%nat →
  step pattern sorted tac rev numChunks (length slices) minIndex maxIndex
       st (RunWorker i)
  = mkScan
      (<[i := mkWorker (w_idx w) (w_allMatches w) (w_count w) (w_handed w)
                (WLoop todo)]> (workers st))
      (sup st) (count st) (matchCount st) (cancelled st)
      (countChan st ++ [n])
      (resultChan st) (reqReset st) (clock st) (emitted st) (scored st).
Proof.
  intros Hw Hpc Hlt. simpl. rewrite Hw. unfold step_worker.
  rewrite Hpc. by rewrite decide_True by lia.
Qed.

Lemma step_hand_over st i w :
  workers st !! i = Some w →
  w_pc w = WLoop [] →
  (length (resultChan st) < length slices)%nat →
  step pattern sorted tac rev numChunks (length slices) minIndex maxIndex
       st (RunWorker i)
  = mkScan
      (<[i := mkWorker (w_idx w) (w_allMatches w) (w_count w)
                (Some (sliceMatches_of sorted tac (w_allMatches w)))
                WReturned]> (workers st))
      (sup st) (count st) (matchCount st) (cancelled st) (countChan st)
      (resultChan st
         ++ [mkPartial (w_idx w)
               (sliceMatches_of sorted tac (w_allMatches w))])
      (reqReset st) (clock st) (emitted st) (scored st).
Proof.
  intros Hw Hpc Hlt. simpl. rewrite Hw. unfold step_worker.
  rewrite Hpc. by rewrite decide_True by done.
Qed.

(** Goroutine [i], alone, from the head of its loop to its return. *)
Lemma run_worker_to_end i : ∀ todo st w,
  workers st !! i = Some w →
  w_pc w = WLoop todo →
  cancelled st = false →
  (length (countChan st) + length todo ≤ length (concat slices))%nat →
  (length (resultChan st) < length slices)%nat →
  ∃ st',
    run' (replicate (2 * length todo + 1) (RunWorker i)) st = st'
    ∧ (∃ w', workers st' = <[i := w']> (workers st)
             ∧ w_pc w' = WReturned ∧ w_idx w' = w_idx w)
    ∧ length (countChan st') = (length (countChan st) + length todo)%nat
    ∧ (∃ r, resultChan st' = resultChan st ++ [r] ∧ pr_index r = w_idx w)
    ∧ sup st' = sup st ∧ cancelled st' = false
    ∧ reqReset st' = reqReset st ∧ count st' = count st.
Proof.
  induction todo as [|chunk todo IH]; intros st w Hw Hpc Hc Hcc Hrc.
  - eexists. split; [done|]. simpl replicate. rewrite run_cons.
    rewrite (step_hand_over _ _ _ Hw Hpc Hrc). simpl.
    split_and!; eauto.
  - assert (Hi : (i < length (workers st))%nat) by (by eapply lookup_lt_Some).
    replace (2 * length (chunk :: todo) + 1)%nat
      with (S (S (2 * length todo + 1))) by (simpl; lia).
    set (n := (2 * length todo + 1)%nat) in *.
    eexists. split; [done|]. simpl replicate. rewrite !run_cons.
    rewrite (step_score _ _ _ _ _ Hw Hpc Hc).
    erewrite step_send;
      [|simpl; by apply list_lookup_insert_eq|done|simpl in *; lia].
    simpl. rewrite list_insert_insert_eq.
    match goal with |- context [run' _ ?s] => set (st2 := s) end.
    edestruct (IH st2) as (st' & <- & (w' & Hws & Hpc' & Hidx') & Hlen
                           & (r & Hr & Hidx) & Hsup & Hcanc & Hreset
                           & Hcount).
    + subst st2. simpl. by apply list_lookup_insert_eq.
    + done.
    + done.
    + subst st2. simpl. rewrite length_app. simpl in *. lia.
    + done.
    + split_and!; try done.
      * exists w'. split; [|done]. rewrite Hws. subst st2. simpl.
        by rewrite list_insert_insert_eq.
      * rewrite Hlen. subst st2. simpl. rewrite length_app. simpl. lia.
      * exists r. split; [|done]. by rewrite Hr.
Qed.

Lemma concat_take_length k :
  (length (concat (take k slices)) ≤ length (concat slices))%nat.
Proof.
  rewrite <- (take_drop k slices) at 2. rewrite concat_app, length_app. lia.
Qed.

(** All goroutines run to their end, in slice order. *)
Lemma run_all_workers st0 :
  first_returned slices 0 st0 →
  ∀ k, (k ≤ length slices)%nat →
  ∃ sched, first_returned slices k (run' sched st0).
Proof.
  intros H0 k. induction k as [|k IH]; intros Hk.
  - by exists [].
  - destruct IH as [sched Hst]; [lia|].
    set (st := run' sched st0) in *.
    destruct Hst as (Hlen & Hret & Hrest & Hcc & Hrc & Hidx & Hwidx
                     & Hsup & Hcanc & Hreset & Hcount).
    destruct (lookup_lt_is_Some_2 slices k) as [slice Hslice]; [lia|].
    destruct (Hrest k slice) as (w & Hw & Hpc); [done..|].
    destruct (run_worker_to_end k slice st w Hw Hpc Hcanc)
      as (st' & Hrun & (w' & Hws & Hpc' & Hidx') & Hcc' & (r & Hr & Hri)
          & Hsup' & Hcanc' & Hreset' & Hcount').
    { rewrite Hcc. pose proof (concat_take_length (S k)) as Hle.
      rewrite (take_S_r _ _ _ Hslice), concat_app, length_app in Hle.
      simpl in Hle. rewrite app_nil_r in Hle. lia. }
    { lia. }
    exists (sched ++ replicate (2 * length slice + 1) (RunWorker k)).
    rewrite run_app. fold st. rewrite Hrun.
    assert (Hk' : (k < length (workers st))%nat) by lia.
    split_and!.
    + by rewrite Hws, length_insert.
    + intros j w0 Hj. rewrite Hws. destruct (decide (k = j)) as [<-|Hne].
      * rewrite list_lookup_insert_eq by done. by intros [= <-].
      * rewrite list_lookup_insert_ne by done. apply Hret. lia.
    + intros j slice' Hj Hs'. rewrite Hws.
      rewrite list_lookup_insert_ne by lia. apply Hrest; [lia|done].
    + rewrite Hcc', Hcc, (take_S_r _ _ _ Hslice), concat_app, length_app.
      simpl. by rewrite app_nil_r.
    + rewrite Hr, length_app. simpl. lia.
    + rewrite Hr. apply Forall_app. split; [done|].
      constructor; [|done]. rewrite Hri, (Hwidx k w Hw). lia.
    + intros j w0. rewrite Hws. destruct (decide (k = j)) as [<-|Hne].
      * rewrite list_lookup_insert_eq by done. intros [= <-].
        rewrite Hidx'. by apply Hwidx.
      * rewrite list_lookup_insert_ne by done. apply Hwidx.
    + by rewrite Hsup'.
    + done.
    + by rewrite Hreset'.
    + by rewrite Hcount'.
Qed.

(** The supervisor counts what is in [countChan]: with no reset posted
    it reaches the number of chunks and turns to collecting. *)
Lemma run_supervisor_counting : ∀ cc st,
  sup st = SCounting →
  countChan st = cc →
  cc ≠ [] →
  reqReset st = false →
  count st + Z.of_nat (length cc) = numChunks →
  sup (run' (replicate (length cc) RunSupervisor) st)
  = collect pattern sorted tac rev (length slices) minIndex maxIndex
            0 (replicate (length slices) [])
  ∧ resultChan (run' (replicate (length cc) RunSupervisor) st)
    = resultChan st.
Proof.
  induction cc as [|n cc IH]; intros st Hsup Hcc Hne Hreset Hcount; [done|].
  simpl replicate. rewrite run_cons. simpl step. unfold step_supervisor.
  rewrite Hsup, Hcc.
  destruct cc as [|n' cc].
  - simpl. rewrite decide_True by (simpl in *; lia). done.
  - rewrite decide_False by (simpl in *; lia).
    assert (Hgo : ∀ s,
              sup s = SCounting → countChan s = n' :: cc →
              reqReset s = false → count s = count st + 1 →
              resultChan s = resultChan st →
              sup (run' (replicate (length (n' :: cc)) RunSupervisor) s)
              = collect pattern sorted tac rev (length slices) minIndex
                        maxIndex 0 (replicate (length slices) [])
              ∧ resultChan
                  (run' (replicate (length (n' :: cc)) RunSupervisor) s)
                = resultChan st).
    { intros s S1 S2 S3 S4 S5.
      destruct (IH s S1 S2) as [E1 E2]; [done|done|simpl in *; lia|].
      split; [exact E1|by rewrite E2]. }
    cbn [reqReset]. rewrite Hreset. case_decide; by apply Hgo.
Qed.

(** The supervisor collects what is in [resultChan]: once it received
    one result per slice it returns a merger. *)
Lemma run_supervisor_collecting : ∀ rc st k partial,
  sup st = SCollecting k partial →
  resultChan st = rc →
  rc ≠ [] →
  (k + length rc = length slices)%nat →
  length partial = length slices →
  Forall (λ r, (pr_index r < length slices)%nat) rc →
  ∃ mg,
    sup (run' (replicate (length rc) RunSupervisor) st)
    = SReturned (Some mg) false.
Proof.
  induction rc as [|r rc IH]; intros st k partial Hsup Hrc Hne Hk Hlen Hall;
    [done|].
  apply Forall_cons in Hall as [Hr Hall].
  simpl replicate. rewrite run_cons. simpl step. unfold step_supervisor.
  rewrite Hsup, Hrc. rewrite decide_True by lia. unfold collect.
  destruct rc as [|r' rc].
  - simpl. rewrite decide_True by (simpl in *; lia). eauto.
  - rewrite decide_False by (simpl in *; lia).
    eapply IH; simpl in *; [done|done|done|lia| |done].
    by rewrite length_insert.
Qed.

(** From the start of the goroutines, some schedule takes the scan to
    the return of a merger. *)
Lemma run_completes ws :
  slices ≠ [] → concat slices ≠ [] →
  first_returned slices 0 (scan_start ws) →
  ∃ sched mg, sup (run' sched (scan_start ws)) = SReturned (Some mg) false.
Proof.
  intros Hs Hc H0.
  destruct (run_all_workers _ H0 (length slices)) as [s1 Hst1]; [done|].
  set (st1 := run' s1 (scan_start ws)) in *.
  destruct Hst1 as (_ & _ & _ & Hcc & Hrc & Hidx & _ & Hsup & _ & Hreset
                    & Hcount).
  rewrite firstn_all in Hcc.
  assert (0 < length (concat slices))%nat
    by (destruct (concat slices); simpl; [done|lia]).
  assert (0 < length slices)%nat by (destruct slices; simpl; [done|lia]).
  destruct (run_supervisor_counting (countChan st1) st1) as [Hsup2 Hrc2];
    [done|done|by destruct (countChan st1); simpl in *; [lia|]|done|lia|].
  set (st2 := run' (replicate (length (countChan st1)) RunSupervisor) st1)
    in *.
  unfold collect in Hsup2. rewrite decide_False in Hsup2 by lia.
  destruct (run_supervisor_collecting (resultChan st2) st2 0
              (replicate (length slices) []))
    as [mg Hmg]; [done|done| | |by rewrite length_replicate| |].
  - rewrite Hrc2. destruct (resultChan st1); simpl in *; [lia|done].
  - rewrite Hrc2. lia.
  - by rewrite Hrc2.
  - exists (s1 ++ replicate (length (countChan st1)) RunSupervisor
               ++ replicate (length (resultChan st2)) RunSupervisor), mg.
    by rewrite !run_app.
Qed.

End ScanCompletes.

Section ScanCompletesFromRequest.
Context `{Collaborators}.

Lemma spawn_is_Some slices : ∀ idx slab,
  (idx + length slices ≤ length slab)%nat →
  is_Some (spawn idx slab slices).
Proof.
  induction slices as [|chunks slices IH]; intros idx slab Hlen; simpl.
  - done.
  - destruct (lookup_lt_is_Some_2 slab idx) as [b ->]; [simpl in Hlen; lia|].
    destruct (IH (S idx) (<[idx:=true]> slab)) as [[slab' ws] ->].
    + rewrite length_insert. simpl in Hlen. lia.
    + done.
Qed.

Lemma first_returned_start slices slab slab' ws :
  spawn 0 slab slices = Some (slab', ws) →
  first_returned slices 0 (scan_start ws).
Proof.
  intros [Hlen Hws]%spawn_workers. unfold first_returned. simpl.
  split_and!; try done.
  - intros j w Hj. lia.
  - intros j slice _ Hs.
    destruct (lookup_lt_is_Some_2 ws j) as [w Hw].
    { rewrite Hlen. by eapply lookup_lt_Some. }
    destruct (Hws j w Hw) as (slice' & Hs' & ->).
    exists (mkWorker j [] 0 None (WLoop slice')).
    split; [done|]. simpl. congruence.
  - intros j w Hw. by destruct (Hws j w Hw) as (slice & _ & ->).
Qed.

(** A matcher with a positive partition count and a slab slot for each
    partition can complete the scan of any request with chunks, a
    non-empty pattern and a readable first item: some schedule makes
    [scan] return a merger, not cancelled. *)
Lemma scan_can_complete m request :
  req_chunks request ≠ [] →
  IsEmpty (req_pattern request) = false →
  (∀ chunk0, req_chunks request !! 0%nat = Some chunk0 →
             is_Some (item0_Index chunk0)) →
  1 ≤ m_partitions m →
  (Z.to_nat (m_partitions m) ≤ length (m_slab m))%nat →
  ∃ sched m' st mg,
    scan m request sched = Some (m', st)
    ∧ sup st = SReturned (Some mg) false.
Proof.
  intros Hne E Hitem HP Hslab.
  destruct (sliceChunks_covers (m_partitions m) (req_chunks request) HP Hne)
    as (slices & Hsl & Hconcat & Hlen).
  destruct (spawn_is_Some slices 0 (m_slab m)) as [[slab ws] Hsp]; [lia|].
  destruct (lookup_lt_is_Some_2 (req_chunks request) 0) as [chunk0 Hc0].
  { destruct (req_chunks request); simpl; [done|lia]. }
  destruct (Hitem chunk0 Hc0) as [minIndex Hmin].
  destruct (lookup_lt_is_Some_2 (req_chunks request)
              (Z.to_nat (Z.of_nat (length (req_chunks request)) - 1)))
    as [chunkN HcN].
  { destruct (req_chunks request); simpl; [done|lia]. }
  destruct (run_completes (req_pattern request)
              (m_sort m && sortable (req_pattern request)) (m_tac m)
              (req_revision request) minIndex (lastIndex chunkN minIndex)
              slices ws) as (sched & mg & Hrun).
  { destruct slices; simpl in *; [lia|done]. }
  { by rewrite Hconcat. }
  { by eapply first_returned_start. }
  rewrite Hconcat in Hrun.
  exists sched. unfold scan. rewrite E.
  rewrite decide_False by (destruct (req_chunks request); simpl; [done|lia]).
  rewrite Hc0. simpl. rewrite Hmin. simpl. rewrite HcN. simpl.
  rewrite Hsl. simpl. rewrite Hsp. simpl.
  eexists _, _, mg. split; [done|]. exact Hrun.
Qed.

(** A matcher made by [NewMatcher] has a slab slot for each partition. *)
Lemma NewMatcher_slab multiplier numCPU maxPartitions sort tac rev :
  let m := NewMatcher multiplier numCPU maxPartitions sort tac rev in
  length (m_slab m) = Z.to_nat (m_partitions m).
Proof. simpl. by rewrite length_replicate. Qed.

End ScanCompletesFromRequest.

(** ** The request loop *)

Section LoopFacts.
Context `{Collaborators} `{!MergerMethods}.

(** Lines 86-94 report a clearing exactly when the request's sort flag
    or revision differs from the matcher's. *)
Lemma invalidate_cacheCleared m request :
  (invalidate m request).2 = true
  ↔ req_sort request ≠ m_sort m ∨ req_revision request ≠ m_revision m.
Proof. unfold invalidate. case_decide; simpl; naive_solver. Qed.

(** When they clear, the matcher adopts the request's values and drops
    every cached merger; the chunk cache is cleared when the request's
    revision is not compatible with [m.revision], which by then is the
    request's revision itself. *)
Lemma invalidate_cleared m request :
  (invalidate m request).2 = true →
  let m' := (invalidate m request).1 in
  m_sort m' = req_sort request
  ∧ m_revision m' = req_revision request
  ∧ m_mergerCache m' = ∅
  ∧ m_eventBox m' = m_eventBox m
  ∧ m_cache m'
    = (if compatible (req_revision request) (req_revision request)
       then m_cache m else S (m_cache m)).
Proof.
  unfold invalidate. case_decide; simpl; [|done]. intros _.
  by destruct (compatible _ _).
Qed.

Lemma invalidate_kept m request :
  (invalidate m request).2 = false → (invalidate m request).1 = m.
Proof. unfold invalidate. by case_decide. Qed.

(** If every revision is compatible with itself, the loop never clears
    the chunk cache. *)
Lemma invalidate_never_clears_chunk_cache m request :
  (∀ r, compatible r r = true) →
  m_cache (invalidate m request).1 = m_cache m.
Proof.
  intros Hrefl. destruct (invalidate m request).2 eqn:E.
  - apply invalidate_cleared in E as (_ & _ & _ & _ & ->). by rewrite Hrefl.
  - by rewrite invalidate_kept.
Qed.

(** The cache look-up of lines 102-113 finds a merger exactly when
    nothing was cleared, the count is [prevCount], and the cache holds a
    merger for the pattern string whose [final] flag is the request's. *)
Lemma lookup_cache_hit m prevCount heap request cacheCleared ps count :
  (∃ m' prevCount' l,
     lookup_cache m prevCount heap request cacheCleared ps count
     = Some (m', prevCount', Some l))
  ↔ cacheCleared = false ∧ count = prevCount
    ∧ ∃ l mg, m_mergerCache m !! ps = Some l ∧ heap !! l = Some mg
              ∧ final mg = req_final request.
Proof.
  unfold lookup_cache. split.
  - intros (m' & p' & l & Hl).
    destruct cacheCleared; simpl in Hl; [done|].
    case_decide; [|done].
    destruct (m_mergerCache m !! ps) as [cached|] eqn:Hc; [|done].
    destruct (heap !! cached) as [mg|] eqn:Hh; [|done]. simpl in Hl.
    case_decide; [|done]. injection Hl as <- <- <-. eauto 10.
  - intros (-> & -> & l & mg & Hc & Hh & Hf). simpl.
    rewrite decide_True by done. rewrite Hc, Hh. simpl.
    rewrite decide_True by done. eauto.
Qed.

(** What the look-up leaves in [prevCount] and in the merger cache. *)
Lemma lookup_cache_state m prevCount heap request cacheCleared ps count
    m' prevCount' found :
  lookup_cache m prevCount heap request cacheCleared ps count
  = Some (m', prevCount', found) →
  prevCount' = (if cacheCleared then prevCount else count)
  ∧ m_eventBox m' = m_eventBox m
  ∧ m_cache m' = m_cache m
  ∧ m_mergerCache m'
    = (if decide (cacheCleared = false ∧ count ≠ prevCount) then ∅
       else m_mergerCache m).
Proof.
  unfold lookup_cache. intros Hl.
  destruct cacheCleared; simpl in Hl.
  { injection Hl as <- <- <-. by rewrite decide_False by intuition congruence. }
  case_decide as Hc.
  - rewrite decide_False by intuition congruence.
    destruct (m_mergerCache m !! ps) as [cached|];
      [|by injection Hl as <- <- <-].
    destruct (heap !! cached) as [mg|]; [|done]. simpl in Hl.
    case_decide; by injection Hl as <- <- <-.
  - rewrite decide_True by done. by injection Hl as <- <- <-.
Qed.

Lemma publish_prevCount m prevCount heap request ps l ls' :
  publish m prevCount heap request ps l = CycleDone ls' →
  ls_prevCount ls' = prevCount.
Proof.
  unfold publish. destruct (heap !! l); [|done]. by intros [= <-].
Qed.

(** A cycle takes its merger from the cache, and runs no scan, exactly
    when lines 86-94 cleared nothing, the request's item count is the
    loop's [prevCount], and the cache holds a merger for the exact
    pattern string whose [final] flag is the request's.  The clearing
    happens exactly when sort flag or revision differ, and [prevCount]
    moves to the request's count only in a cycle that cleared nothing. *)
Lemma cycle_cache_hit ls request sched :
  let cy := cycle ls request sched in
  let count := CountItems (req_chunks request) in
  (is_Some (cy_cached cy)
   ↔ cy_cacheCleared cy = false ∧ count = ls_prevCount ls
     ∧ ∃ l mg,
         m_mergerCache (ls_m ls) !! AsString (req_pattern request) = Some l
         ∧ ls_heap ls !! l = Some mg
         ∧ final mg = req_final request)
  ∧ (cy_cacheCleared cy = true
     ↔ req_sort request ≠ m_sort (ls_m ls)
       ∨ req_revision request ≠ m_revision (ls_m ls))
  ∧ (is_Some (cy_cached cy) → cy_scan cy = None)
  ∧ (cy_cached cy = None → is_Some (cy_scan cy) ∨ cy_end cy = CyclePanic)
  ∧ (∀ ls', cy_end cy = CycleDone ls' →
       ls_prevCount ls'
       = if cy_cacheCleared cy then ls_prevCount ls else count).
Proof.
  intros cy count. subst cy. unfold cycle.
  pose proof (invalidate_cacheCleared (ls_m ls) request) as Hcleared.
  pose proof (invalidate_kept (ls_m ls) request) as Hkept.
  destruct (invalidate (ls_m ls) request) as [m1 cleared]. simpl in *.
  fold count.
  pose proof (lookup_cache_hit m1 (ls_prevCount ls) (ls_heap ls) request
                cleared (AsString (req_pattern request)) count) as Hhit.
  pose proof (lookup_cache_state m1 (ls_prevCount ls) (ls_heap ls) request
                cleared (AsString (req_pattern request)) count) as Hstate.
  assert (Hm1 : cleared = false → m1 = ls_m ls) by auto.
  destruct (lookup_cache _ _ _ _ _ _ _) as [[[m2 p2] [l|]]|]; simpl.
  - (* served from the cache *)
    destruct (proj1 Hhit) as (Hc & Hp & Hex); [eauto|]. subst cleared.
    assert (m1 = ls_m ls) as -> by auto.
    split; [|split; [|split; [|split]]];
      [by split; eauto|done|done|by intros [=]|].
    intros ls' Hpub%publish_prevCount.
    destruct (Hstate _ _ _ eq_refl) as (-> & _). by rewrite Hpub.
  - (* a scan is needed *)
    assert (Hno : ¬ (cleared = false ∧ count = ls_prevCount ls
              ∧ ∃ l mg,
                  m_mergerCache m1 !! AsString (req_pattern request) = Some l
                  ∧ ls_heap ls !! l = Some mg
                  ∧ final mg = req_final request)).
    { intros Hx. apply Hhit in Hx as (? & ? & ? & [=]). }
    destruct (Hstate _ _ _ eq_refl) as (-> & _).
    destruct (scan m2 request sched) as [[m3 st]|]; simpl.
    + split; [|split; [|split; [|split]]];
        [|done|by intros [? [=]]|by left; eauto|].
      * split; [by intros [? [=]]|].
        intros (Hc & Hrest). destruct Hno. split; [done|].
        by rewrite (Hm1 Hc).
      * intros ls'. destruct (sup st) as [| | |[mg|] [|]|]; try done.
        -- by intros [= <-].
        -- by intros ?%publish_prevCount.
        -- by intros [= <-].
    + split; [|split; [|split; [|split]]];
        [|done|by intros [? [=]]|by right|done].
      split; [by intros [? [=]]|].
      intros (Hc & Hrest). destruct Hno. split; [done|].
      by rewrite (Hm1 Hc).
  - (* nil dereference *)
    split; [|split; [|split; [|split]]];
      [|done|by intros [? [=]]|by right|done].
    split; [by intros [? [=]]|].
    intros (Hc & Hrest). rewrite <- (Hm1 Hc) in Hrest.
    destruct (proj2 Hhit) as (? & ? & ? & [=]). by split.
Qed.

(** After a cycle the matcher's sort flag and revision are the
    request's. *)
Lemma cycle_adopts_sort_revision ls request sched ls' :
  cy_end (cycle ls request sched) = CycleDone ls' →
  m_sort (ls_m ls') = req_sort request
  ∧ m_revision (ls_m ls') = req_revision request.
Proof.
  unfold cycle.
  pose proof (invalidate_cleared (ls_m ls) request) as Hcl.
  pose proof (invalidate_kept (ls_m ls) request) as Hkept.
  pose proof (invalidate_cacheCleared (ls_m ls) request) as Hiff.
  destruct (invalidate (ls_m ls) request) as [m1 cleared]. simpl in *.
  assert (Hm1 : m_sort m1 = req_sort request
                ∧ m_revision m1 = req_revision request).
  { destruct cleared.
    - by destruct (Hcl eq_refl) as (? & ? & _).
    - rewrite Hkept by done. apply dec_stable. intros Hne.
      assert (true = false) by (symmetry; apply Hiff;
        destruct (decide (req_sort request = m_sort (ls_m ls)));
        [right; intros E; apply Hne; by split|by left]).
      done. }
  assert (Hlook : ∀ m2 p2 found,
            lookup_cache m1 (ls_prevCount ls) (ls_heap ls) request cleared
              (AsString (req_pattern request))
              (CountItems (req_chunks request)) = Some (m2, p2, found) →
            m_sort m2 = req_sort request
            ∧ m_revision m2 = req_revision request).
  { unfold lookup_cache. intros m2 p2 found Hl.
    destruct cleared; simpl in Hl; [by injection Hl as <- _ _|].
    case_decide; [|by injection Hl as <- _ _].
    destruct (m_mergerCache m1 !! _); [|by injection Hl as <- _ _].
    destruct (ls_heap ls !! _); [|done]. simpl in Hl.
    case_decide; by injection Hl as <- _ _. }
  assert (Hpub : ∀ m2 p2 heap l,
            m_sort m2 = req_sort request
            ∧ m_revision m2 = req_revision request →
            publish m2 p2 heap request (AsString (req_pattern request)) l
            = CycleDone ls' →
            m_sort (ls_m ls') = req_sort request
            ∧ m_revision (ls_m ls') = req_revision request).
  { unfold publish. intros m2 p2 heap l Hm2 Hp.
    destruct (heap !! l); [|done]. injection Hp as <-. simpl.
    by destruct (cacheable _). }
  destruct (lookup_cache _ _ _ _ _ _ _) as [[[m2 p2] [l|]]|] eqn:Hl;
    simpl; [by eauto| |done].
  destruct (scan m2 request sched) as [[m3 st]|] eqn:Hs; simpl; [|done].
  apply scan_frame in Hs as (_ & Hs1 & _ & _ & _ & Hs2 & _).
  destruct (Hlook _ _ _ eq_refl) as [? ?].
  destruct (sup st) as [| | |[mg|] [|]|]; try done.
  - intros [= <-]. simpl. split; congruence.
  - apply Hpub. split; congruence.
  - intros [= <-]. simpl. split; congruence.
Qed.

(** C2, as the code has it. Take two consecutive requests with equal
    query strings, equal item counts, the same sort flag and the same
    revision, the first of which found the matcher's sort flag and
    revision already its own, so that its cycle cleared nothing.  The
    second is served from the merger cache, and no scan is run, exactly
    when the cache left by the first cycle holds for that query string a
    merger whose [final] flag is the second request's.  In general a
    cycle reuses a cached merger exactly when it cleared nothing, the
    item count is the loop's [prevCount], and the cache holds such a
    merger. *)
Theorem consecutive_requests_cache_hit_iff ls r1 s1 ls1 r2 s2 :
  cy_end (cycle ls r1 s1) = CycleDone ls1 →
  cy_cacheCleared (cycle ls r1 s1) = false →
  AsString (req_pattern r1) = AsString (req_pattern r2) →
  CountItems (req_chunks r1) = CountItems (req_chunks r2) →
  req_sort r1 = req_sort r2 →
  req_revision r1 = req_revision r2 →
  let cy2 := cycle ls1 r2 s2 in
  (is_Some (cy_cached cy2)
   ↔ ∃ l mg,
       m_mergerCache (ls_m ls1) !! AsString (req_pattern r1) = Some l
       ∧ ls_heap ls1 !! l = Some mg
       ∧ final mg = req_final r2)
  ∧ (is_Some (cy_cached cy2) → cy_scan cy2 = None)
  ∧ (is_Some (cy_cached cy2)
     ↔ cy_cacheCleared cy2 = false
       ∧ CountItems (req_chunks r2) = ls_prevCount ls1
       ∧ ∃ l mg,
           m_mergerCache (ls_m ls1) !! AsString (req_pattern r2) = Some l
           ∧ ls_heap ls1 !! l = Some mg
           ∧ final mg = req_final r2).
Proof.
  intros Hend Hkept Hps Hcount Hsort Hrev cy2.
  destruct (cycle_adopts_sort_revision _ _ _ _ Hend) as [Hs1 Hr1].
  destruct (cycle_cache_hit ls r1 s1) as (_ & _ & _ & _ & Hprev).
  specialize (Hprev _ Hend). rewrite Hkept in Hprev.
  destruct (cycle_cache_hit ls1 r2 s2) as (Hhit & Hclear & Hnoscan & _).
  fold cy2 in Hhit, Hclear, Hnoscan.
  assert (Hnot : cy_cacheCleared cy2 = false).
  { destruct (cy_cacheCleared cy2); [|done].
    destruct (proj1 Hclear eq_refl); congruence. }
  split; [|by split]. rewrite Hhit, Hps. split.
  - by intros (_ & _ & ?).
  - intros ?. split; [done|]. split; [congruence|done].
Qed.

(** C6. In a cycle whose scan reports cancelled, the cycle ends without
    an [EvtSearchFin]: the events it adds to the event box are the
    progress events of the scan, the store of mergers is untouched, and
    the merger cache is what the look-up of lines 102-113 left (the old
    cache, or the empty one after a clearing), with no entry stored. *)
Theorem cancelled_scan_publishes_nothing ls request sched st mg :
  cy_scan (cycle ls request sched) = Some st →
  sup st = SReturned mg true →
  let cy := cycle ls request sched in
  ∃ ls',
    cy_end cy = CycleDone ls'
    ∧ cy_cached cy = None
    ∧ m_eventBox (ls_m ls') = m_eventBox (ls_m ls) ++ emitted st
    ∧ (∀ l, EvtSearchFin l ∉ emitted st)
    ∧ ls_heap ls' = ls_heap ls
    ∧ m_mergerCache (ls_m ls')
      = (if decide (cy_cacheCleared cy = false
                    ∧ CountItems (req_chunks request) = ls_prevCount ls)
         then m_mergerCache (ls_m ls) else ∅).
Proof.
  intros Hscan Hsup cy. subst cy. revert Hscan. unfold cycle.
  pose proof (invalidate_cleared (ls_m ls) request) as Hcl.
  pose proof (invalidate_kept (ls_m ls) request) as Hkept.
  destruct (invalidate (ls_m ls) request) as [m1 cleared]. simpl in *.
  pose proof (lookup_cache_state m1 (ls_prevCount ls) (ls_heap ls) request
                cleared (AsString (req_pattern request))
                (CountItems (req_chunks request))) as Hstate.
  destruct (lookup_cache _ _ _ _ _ _ _) as [[[m2 p2] [l|]]|]; simpl;
    [done| |done].
  destruct (Hstate _ _ _ eq_refl) as (_ & Hev2 & _ & Hmc2).
  destruct (scan m2 request sched) as [[m3 st']|] eqn:Hs; simpl; [|done].
  intros [= ->]. rewrite Hsup.
  pose proof (scan_frame _ _ _ _ _ Hs) as (_ & _ & _ & _ & Hmc3 & _ & Hev3).
  pose proof (scan_progress _ _ _ _ _ Hs) as (counts & Hem & _).
  eexists. split; [by destruct mg|]. simpl. split_and!; [done| | |done|].
  - rewrite Hev3, Hev2. f_equal.
    destruct cleared.
    + by destruct (Hcl eq_refl) as (_ & _ & _ & ? & _).
    + by rewrite Hkept.
  - intros l. rewrite Hem. intros (c & [=] & _)%list_elem_of_fmap.
  - rewrite Hmc3, Hmc2. destruct cleared.
    + rewrite decide_False by intuition congruence.
      rewrite decide_False by intuition congruence.
      by destruct (Hcl eq_refl) as (_ & _ & ? & _).
    + rewrite Hkept by done.
      destruct (decide (CountItems (req_chunks request) = ls_prevCount ls)).
      * rewrite decide_False by intuition congruence.
        by rewrite decide_True by intuition congruence.
      * rewrite decide_True by intuition congruence.
        by rewrite decide_False by intuition congruence.
Qed.

Lemma publish_events m prevCount heap request ps l ls' :
  publish m prevCount heap request ps l = CycleDone ls' →
  m_eventBox (ls_m ls') = m_eventBox m ++ [EvtSearchFin l].
Proof.
  unfold publish. destruct (heap !! l); [|done]. intros [= <-]. simpl.
  by destruct (cacheable _).
Qed.

(** C9. In a cycle that scans a non-empty pattern, the progress events
    of the scan carry [count/numChunks] over the fixed number of chunks
    with strictly increasing counts, so the sequence of ratios never
    decreases; and when the scan returns a merger its [count] has
    reached the number of chunks, and the cycle then sets [EvtSearchFin]
    after all the progress events. *)
Theorem scan_progress_nondecreasing ls request sched st :
  cy_scan (cycle ls request sched) = Some st →
  IsEmpty (req_pattern request) = false →
  let numChunks := Z.of_nat (length (req_chunks request)) in
  (∃ counts,
     emitted st = (λ c, EvtSearchProgress c numChunks) <$> counts
     ∧ StronglySorted Z.lt counts)
  ∧ (∀ i j e1 e2 q1 q2,
       (i ≤ j)%nat →
       emitted st !! i = Some e1 → emitted st !! j = Some e2 →
       progress_ratio e1 = Some q1 → progress_ratio e2 = Some q2 →
       Qle q1 q2)
  ∧ (∀ mg, sup st = SReturned (Some mg) false →
       count st = numChunks
       ∧ ∃ ls' l,
           cy_end (cycle ls request sched) = CycleDone ls'
           ∧ m_eventBox (ls_m ls')
             = m_eventBox (ls_m ls) ++ emitted st ++ [EvtSearchFin l]).
Proof.
  intros Hscan E numChunks. revert Hscan. unfold cycle.
  pose proof (invalidate_cleared (ls_m ls) request) as Hcl.
  pose proof (invalidate_kept (ls_m ls) request) as Hkept.
  destruct (invalidate (ls_m ls) request) as [m1 cleared]. simpl in *.
  assert (Hev1 : m_eventBox m1 = m_eventBox (ls_m ls)).
  { destruct cleared.
    - by destruct (Hcl eq_refl) as (_ & _ & _ & ? & _).
    - by rewrite Hkept. }
  pose proof (lookup_cache_state m1 (ls_prevCount ls) (ls_heap ls) request
                cleared (AsString (req_pattern request))
                (CountItems (req_chunks request))) as Hstate.
  destruct (lookup_cache _ _ _ _ _ _ _) as [[[m2 p2] [l|]]|]; simpl;
    [done| |done].
  destruct (Hstate _ _ _ eq_refl) as (_ & Hev2 & _).
  destruct (scan m2 request sched) as [[m3 st']|] eqn:Hs; simpl; [|done].
  intros [= ->].
  destruct (scan_progress_facts _ _ _ _ _ Hs) as (Hcounts & Hratio & Hev3
                                                  & Hcount).
  split; [done|]. split; [done|]. intros mg Hmg.
  split; [by eapply Hcount|]. rewrite Hmg.
  unfold publish. rewrite lookup_insert_eq.
  eexists _, _. split; [done|]. simpl.
  destruct (cacheable mg); simpl; by rewrite Hev3, Hev2, Hev1, <- app_assoc.
Qed.

(** Before it slices the chunks, a scan of a non-empty pattern reads the
    index of the first item of the first chunk; if that access is out of
    range the scan panics, whatever the partition count. *)
Lemma scan_reads_first_item m request sched chunk0 :
  IsEmpty (req_pattern request) = false →
  req_chunks request !! 0%nat = Some chunk0 →
  item0_Index chunk0 = None →
  scan m request sched = None.
Proof.
  intros E Hc0 Hnone. unfold scan. rewrite E.
  rewrite decide_False
    by (destruct (req_chunks request); simpl in *; [done|lia]).
  by rewrite Hc0; simpl; rewrite Hnone.
Qed.

End LoopFacts.

(** *** The loop on the concrete instance *)

(** C1 fails on the code.  The matcher holds revision [(0,0)] and the
    request carries [(1,0)], which is not compatible with it.  The cycle
    clears the merger cache, but it tests the request's revision against
    [m.revision] after assigning the request's revision to it, so the
    chunk cache is not cleared. *)
Theorem incompatible_revision_keeps_chunk_cache :
  let request := Fixture.request_new_dataset in
  let cy :=
    cycle (Loop_start Fixture.matcher0) request Fixture.sched_in_order in
  compatible (req_revision request) (m_revision Fixture.matcher0) = false
  ∧ cy_cacheCleared cy = true
  ∧ ∃ ls, cy_end cy = CycleDone ls
      ∧ m_revision (ls_m ls) = req_revision request
      ∧ m_cache (ls_m ls) = m_cache Fixture.matcher0.
Proof.
  split; [reflexivity|]. split; [vm_compute; reflexivity|].
  eexists. split; [vm_compute; reflexivity|]. split; reflexivity.
Qed.

(** C2 as the spec states it fails.  The matcher sorts; the first
    request switches sorting off, so its cycle clears the caches, scans
    and stores the merger, and leaves [prevCount] at 0.  The second
    request is the same request: nothing differs, the stored merger has
    the request's [final] flag, and still the count is not [prevCount],
    so the cycle drops the cache and scans again. *)
Lemma same_request_twice_rescans :
  ¬ (∀ (ls : LoopState) r1 s1 ls1 r2 s2,
       cy_end (cycle ls r1 s1) = CycleDone ls1 →
       AsString (req_pattern r1) = AsString (req_pattern r2) →
       CountItems (req_chunks r1) = CountItems (req_chunks r2) →
       req_sort r1 = req_sort r2 →
       req_revision r1 = req_revision r2 →
       (is_Some (cy_cached (cycle ls1 r2 s2))
        ↔ ∃ l mg,
            m_mergerCache (ls_m ls1) !! AsString (req_pattern r1) = Some l
            ∧ ls_heap ls1 !! l = Some mg
            ∧ final mg = req_final r2)).
Proof.
  intros Hclaim.
  edestruct Hclaim
    with (ls := Loop_start Fixture.matcher0)
         (r1 := Fixture.request_unsorted) (s1 := Fixture.sched_in_order)
         (r2 := Fixture.request_unsorted) (s2 := Fixture.sched_in_order)
    as [_ Hback]; [vm_compute; reflexivity|reflexivity..|].
  destruct Hback as [l Hl].
  - eexists _, _. split; [vm_compute; reflexivity|].
    split; [vm_compute; reflexivity|reflexivity].
  - vm_compute in Hl. discriminate Hl.
Qed.

(** The second of two equal requests that agree with the matcher's sort
    flag and revision is served from the cache. *)
Example same_request_twice_cached :
  ∃ cy1 cy2 ls,
    Loop (Loop_start Fixture.matcher0)
         [WakeRequest Fixture.request_ab Fixture.sched_in_order;
          WakeRequest Fixture.request_ab Fixture.sched_in_order; WakeQuit]
    = ([cy1; cy2], CycleDone ls)
    ∧ cy_cached cy1 = None ∧ is_Some (cy_scan cy1)
    ∧ is_Some (cy_cached cy2) ∧ cy_scan cy2 = None
    ∧ m_eventBox (ls_m ls) = [EvtSearchFin 0%nat; EvtSearchFin 0%nat].
Proof.
  eexists _, _, _. split; [vm_compute; reflexivity|].
  split_and!; try reflexivity; by eexists.
Qed.

Lemma consecutive_requests_cache_hit_iff_witness :
  ∃ ls1,
    cy_end (cycle (Loop_start Fixture.matcher0) Fixture.request_ab
                  Fixture.sched_in_order) = CycleDone ls1
    ∧ cy_cacheCleared (cycle (Loop_start Fixture.matcher0)
                             Fixture.request_ab Fixture.sched_in_order)
      = false
    ∧ is_Some (cy_cached (cycle ls1 Fixture.request_ab
                                Fixture.sched_reversed))
    ∧ cy_scan (cycle ls1 Fixture.request_ab Fixture.sched_reversed) = None.
Proof.
  eexists. split; [vm_compute; reflexivity|].
  split; [vm_compute; reflexivity|].
  edestruct consecutive_requests_cache_hit_iff
    with (ls := Loop_start Fixture.matcher0)
         (r1 := Fixture.request_ab) (s1 := Fixture.sched_in_order)
         (r2 := Fixture.request_ab) (s2 := Fixture.sched_reversed)
    as (Hiff & Hnoscan & _);
    [vm_compute; reflexivity|vm_compute; reflexivity|reflexivity..|].
  pose proof (proj2 Hiff) as Hhit.
  split; [apply Hhit|apply Hnoscan, Hhit];
    (eexists _, _; split; [vm_compute; reflexivity|];
     split; [vm_compute; reflexivity|reflexivity]).
Defined.

Lemma cancelled_scan_publishes_nothing_witness :
  ∃ st mg ls',
    cy_scan (cycle (Loop_start Fixture.matcher0) Fixture.request_ab
                   Fixture.sched_reset) = Some st
    ∧ sup st = SReturned mg true
    ∧ cy_end (cycle (Loop_start Fixture.matcher0) Fixture.request_ab
                    Fixture.sched_reset) = CycleDone ls'
    ∧ m_eventBox (ls_m ls') = [] ∧ ls_heap ls' = ∅
    ∧ m_mergerCache (ls_m ls') = ∅.
Proof.
  edestruct cancelled_scan_publishes_nothing
    with (ls := Loop_start Fixture.matcher0) (request := Fixture.request_ab)
         (sched := Fixture.sched_reset)
    as (ls' & Hend & _ & Hev & _ & Hheap & Hmc);
    [vm_compute; reflexivity|reflexivity|].
  eexists _, _, ls'. split; [vm_compute; reflexivity|].
  split; [reflexivity|]. split; [exact Hend|].
  split; [rewrite Hev; reflexivity|]. split; [exact Hheap|].
  rewrite Hmc. reflexivity.
Defined.

Lemma scan_progress_nondecreasing_witness :
  ∃ st,
    cy_scan (cycle (Loop_start Fixture.matcher0) Fixture.request_ab
                   Fixture.sched_slow) = Some st
    ∧ IsEmpty (req_pattern Fixture.request_ab) = false
    ∧ emitted st
      = [EvtSearchProgress 1 5; EvtSearchProgress 2 5;
         EvtSearchProgress 3 5; EvtSearchProgress 4 5]
    ∧ count st = 5
    ∧ (∀ i j e1 e2 q1 q2,
         (i ≤ j)%nat →
         emitted st !! i = Some e1 → emitted st !! j = Some e2 →
         progress_ratio e1 = Some q1 → progress_ratio e2 = Some q2 →
         Qle q1 q2).
Proof.
  eexists. split; [vm_compute; reflexivity|]. split; [reflexivity|].
  split; [reflexivity|]. split; [reflexivity|].
  eapply (scan_progress_nondecreasing (Loop_start Fixture.matcher0)
            Fixture.request_ab Fixture.sched_slow);
    [vm_compute; reflexivity|reflexivity].
Defined.

(** * Further properties *)

(** ** The partitioner beyond a positive partition count *)

Section PartitionerEdge.
Context {A : Type}.
Implicit Types (l : list A) (P : Z).

(** The quotient [len / P] of [sliceChunks], for a negative [P]. *)
Lemma quot_negative (N P : Z) :
  0 ≤ N → P < 0 →
  (N < - P → Z.quot N P = 0) ∧ (- P ≤ N → Z.quot N P ≤ -1).
Proof.
  intros HN HP.
  assert (E : Z.quot N P = - (N / - P)).
  { rewrite <- (Z.quot_div_nonneg N (- P)) by lia.
    rewrite <- Z.quot_opp_r by lia. f_equal. lia. }
  rewrite E. split.
  - intros Hlt. rewrite Z.div_small by lia. done.
  - intros Hge. assert (0 < N / - P) by (apply Z.div_str_pos; lia). lia.
Qed.

(** Slices of width one are the singletons of the elements. *)
Lemma singleton_slices l :
  l ≠ [] →
  ((λ i, take 1 (drop (i * 1) l)) <$> seq 0 (length l - 1))
  ++ [drop ((length l - 1) * 1) l]
  = (λ x, [x]) <$> l.
Proof.
  intros Hne. assert (1 ≤ length l)%nat by (destruct l; simpl; [done|lia]).
  apply list_eq. intros i. rewrite (list_lookup_fmap _ l).
  destruct (l !! i) as [x|] eqn:Hx; simpl.
  - pose proof (lookup_lt_Some _ _ _ Hx) as Hi.
    destruct (decide (i < length l - 1)%nat) as [Hlt|Hge].
    + rewrite lookup_app_l by (rewrite length_fmap, length_seq; lia).
      rewrite list_lookup_fmap, lookup_seq_lt by lia. simpl.
      by rewrite Nat.mul_1_r, (drop_S _ _ _ Hx).
    + assert (i = (length l - 1)%nat) as -> by lia.
      rewrite lookup_app_r by (rewrite length_fmap, length_seq; lia).
      rewrite length_fmap, length_seq, Nat.sub_diag. simpl.
      rewrite Nat.mul_1_r, (drop_S _ _ _ Hx), drop_ge; [done|lia].
  - apply lookup_ge_None. apply lookup_ge_None in Hx.
    rewrite length_app, length_fmap, length_seq. simpl. lia.
Qed.

(** With one chunk per slice: the slices of a list shorter than the
    partition count, whatever the sign of the count. *)
Lemma sliceChunks_short P l :
  P ≠ 0 → Z.of_nat (length l) < Z.abs P →
  Partitioner.sliceChunks P l = Some ((λ x, [x]) <$> l).
Proof.
  intros HP Hlt. unfold Partitioner.sliceChunks.
  rewrite decide_False by done.
  assert (Hq : Z.quot (Z.of_nat (length l)) P = 0).
  { destruct (decide (0 < P)).
    - rewrite Z.quot_div_nonneg by lia. apply Z.div_small. lia.
    - apply quot_negative; lia. }
  rewrite Hq. rewrite decide_True by done.
  rewrite decide_False by lia.
  destruct (decide (l = [])) as [->|Hne]; [done|].
  rewrite <- singleton_slices by done.
  assert (1 ≤ length l)%nat by (destruct l; simpl; [done|lia]).
  pose proof (mapM_slices l (length l) 1 ltac:(lia) ltac:(lia)) as E.
  rewrite <- E. f_equal.
Qed.

(** [sliceChunks] panics on a zero partition count, and on a negative
    one unless the list is shorter than its absolute value. *)
Lemma sliceChunks_panics P l :
  P = 0 ∨ (P < 0 ∧ - P ≤ Z.of_nat (length l)) →
  Partitioner.sliceChunks P l = None.
Proof.
  intros [->|[HP Hge]]; unfold Partitioner.sliceChunks; [done|].
  rewrite decide_False by lia.
  destruct (quot_negative (Z.of_nat (length l)) P) as [_ Hq]; [lia..|].
  specialize (Hq Hge). rewrite decide_False by lia.
  by rewrite decide_True by lia.
Qed.

(** [sliceChunks] returns exactly when the partition count is positive,
    or negative with a list shorter than its absolute value; and whatever
    it returns has no empty slice, concatenates to the input in order,
    and counts the smaller of the list's length and the partition
    count's absolute value. *)
Theorem sliceChunks_returns_iff P l :
  (is_Some (Partitioner.sliceChunks P l)
   ↔ 1 ≤ P ∨ (P < 0 ∧ Z.of_nat (length l) < - P))
  ∧ ∀ slices,
      Partitioner.sliceChunks P l = Some slices →
      concat slices = l
      ∧ Forall (λ s, s ≠ []) slices
      ∧ Z.of_nat (length slices) = Z.min (Z.of_nat (length l)) (Z.abs P).
Proof.
  assert (Hshort : ∀ slices,
            ((λ x : A, [x]) <$> l) = slices →
            concat slices = l ∧ Forall (λ s, s ≠ []) slices
            ∧ length slices = length l).
  { intros slices <-. split_and!.
    - induction l as [|a l IH]; simpl; [done|by f_equal].
    - apply Forall_fmap, Forall_true. done.
    - by rewrite length_fmap. }
  destruct (decide (P = 0)) as [->|HP0].
  { rewrite sliceChunks_panics by auto. split.
    - split; [by intros [? [=]]|lia].
    - intros ? [=]. }
  destruct (decide (Z.of_nat (length l) < Z.abs P)) as [Hlt|Hge].
  { rewrite sliceChunks_short by done. split.
    - split; [lia|eauto].
    - intros slices [= Hs]. destruct (Hshort _ Hs) as (? & ? & ?).
      split_and!; [done..|lia]. }
  destruct (decide (P < 0)) as [Hneg|Hpos].
  { rewrite sliceChunks_panics by (right; lia). split.
    - split; [by intros [? [=]]|lia].
    - intros ? [=]. }
  assert (l ≠ []) by (intros ->; simpl in *; lia).
  pose proof (sliceChunks_eq P l ltac:(lia) ltac:(done)) as E.
  simpl in E.
  destruct (decide (Z.of_nat (length l) < P)) as [?|_]; [lia|].
  assert (0 < Z.of_nat (length l) / P) by (apply Z.div_str_pos; lia).
  assert (P * (Z.of_nat (length l) / P) ≤ Z.of_nat (length l))
    by (apply Z.mul_div_le; lia).
  rewrite E. split.
  - split; [lia|eauto].
  - intros ? [= <-]. split_and!.
    + rewrite concat_app, concat_regular. simpl.
      by rewrite app_nil_r, take_drop.
    + apply Forall_lookup. intros i s Hs.
      apply slices_lookup_length in Hs as [Hi Hs]; [|lia|nia].
      intros ->. simpl in Hs. case_decide; nia.
    + rewrite length_app, length_fmap, length_seq. simpl. lia.
Qed.

End PartitionerEdge.

(** ** Counting, cancellation and the channels *)

Section ScanAccounting.
Context `{Collaborators}.
Variable (pattern : Pattern) (sorted tac : bool) (rev : revision).
Variable (numChunks : Z) (minIndex maxIndex : Z).
Variable (slices : list (list Chunk)).

Local Abbreviation step' :=
  (step pattern sorted tac rev numChunks (length slices) minIndex maxIndex).
Local Abbreviation run' :=
  (run pattern sorted tac rev numChunks (length slices) minIndex maxIndex).
Local Abbreviation step_worker' :=
  (step_worker pattern sorted tac numChunks (length slices)).

Lemma run_preserves' (I : ScanState → Prop) :
  (∀ st a, I st → I (step' st a)) →
  ∀ sched st, I st → I (run' sched st).
Proof.
  intros Hstep sched. induction sched as [|a sched IH]; intros st Hst.
  - done.
  - apply (IH (step' st a)), Hstep, Hst.
Qed.

Lemma sum_list_insert {A} (f : A → nat) (l : list A) i x y :
  l !! i = Some x →
  (sum_list (f <$> <[i := y]> l) + f x = sum_list (f <$> l) + f y)%nat.
Proof.
  revert i. induction l as [|a l IH]; intros [|i] Hx; csimpl in *; try done.
  - injection Hx as ->. lia.
  - specialize (IH i Hx). lia.
Qed.

Lemma sum_list_lookup_le {A} (f : A → nat) (l : list A) i x :
  l !! i = Some x → (f x ≤ sum_list (f <$> l))%nat.
Proof.
  revert i. induction l as [|a l IH]; intros [|i] Hx; csimpl in *; try done.
  - injection Hx as ->. lia.
  - specialize (IH i Hx). lia.
Qed.

(** A goroutine's step: what it adds to [countChan] it takes from what
    it has still to report. *)
Lemma step_worker_pending st w :
  let r := step_worker' st w in
  (length (countChan r.1) + pending r.2 ≤ length (countChan st) + pending w)%nat.
Proof.
  unfold step_worker, pending.
  destruct (w_pc w) as [[|chunk todo]|n todo|] eqn:Hpc; simpl.
  - case_decide; simpl; rewrite ?Hpc; simpl; lia.
  - destruct (cancelled st); simpl; lia.
  - case_decide; simpl; rewrite ?Hpc, ?length_app; simpl; lia.
  - rewrite Hpc. lia.
Qed.

Lemma count_inv_step st a :
  count_inv numChunks st → count_inv numChunks (step' st a).
Proof.
  intros (Hc0 & Hsum & Hem).
  assert (Hsame : ∀ st', count st' = count st →
                          countChan st' = countChan st →
                          workers st' = workers st →
                          emitted st' = emitted st →
                          count_inv numChunks st').
  { intros st' E1 E2 E3 E4. unfold count_inv. by rewrite E1, E2, E3, E4. }
  destruct a as [i| | |]; simpl; [| |by apply Hsame..].
  - destruct (workers st !! i) as [w|] eqn:Hw; [|by apply Hsame].
    pose proof (step_worker_frame pattern sorted tac numChunks slices
                  st w) as (Ews & _ & _ & Ecount & Eem).
    pose proof (step_worker_pending st w) as Hp.
    destruct (step_worker' st w) as [st1 w1]. simpl in *.
    unfold count_inv. simpl. rewrite Ecount, Eem, Ews.
    split; [done|]. split; [|done].
    pose proof (sum_list_insert pending (workers st) i w w1 Hw). lia.
  - unfold step_supervisor.
    destruct (sup st) as [| |received partial|mg c|]; [| | |by apply Hsame..].
    + destruct (countChan st) as [|n rest] eqn:Ecc; [by apply Hsame|].
      simpl in Hsum.
      assert (Hup : ∀ st', count st' = count st + 1 →
                           countChan st' = rest →
                           workers st' = workers st →
                           emitted st' = emitted st →
                           count_inv numChunks st').
      { intros st' E1 E2 E3 E4. unfold count_inv.
        rewrite E1, E2, E3, E4. split; [lia|]. split; [lia|done]. }
      simpl. case_decide; [by apply Hup|].
      destruct (reqReset st); [by apply Hup|].
      case_decide; [|by apply Hup].
      unfold count_inv. simpl. split; [lia|]. split; [lia|].
      apply Forall_app. split; [done|]. constructor; [|done].
      eexists. split; [done|]. lia.
    + destruct (all_returned (workers st)); by apply Hsame.
    + destruct (resultChan st) as [|r rest]; [by apply Hsame|]. simpl.
      case_decide; by apply Hsame.
Qed.

Lemma all_returned_lookup ws i w :
  all_returned ws = true → ws !! i = Some w → w_pc w = WReturned.
Proof.
  unfold all_returned. rewrite forallb_forall. intros Hall Hw.
  specialize (Hall w). rewrite <- list_elem_of_In in Hall.
  specialize (Hall (list_elem_of_lookup_2 _ _ _ Hw)).
  by destruct (w_pc w).
Qed.

Lemma cancel_inv_step st a :
  cancel_inv numChunks st → cancel_inv numChunks (step' st a).
Proof.
  intros Hinv.
  assert (Hsame : ∀ st', sup st' = sup st → cancelled st' = cancelled st →
                          (reqReset st = true → reqReset st' = true) →
                          count st' = count st →
                          workers st' = workers st →
                          cancel_inv numChunks st').
  { intros st' E1 E2 E3 E4 E5. unfold cancel_inv in *.
    rewrite E1, E2, E4, E5.
    destruct (sup st) as [| | |[mg|] c|]; try done;
      [destruct Hinv as (? & ? & ?)|destruct Hinv as (? & ? & ? & ?)];
      split_and!; auto. }
  destruct a as [i| | |]; simpl; [| |by apply Hsame..].
  - destruct (workers st !! i) as [w|] eqn:Hw; [|by apply Hsame].
    pose proof (step_worker_frame pattern sorted tac numChunks slices
                  st w) as (Ews & Ec & Es & Ecount & _).
    assert (Hret : w_pc w = WReturned → step_worker' st w = (st, w)).
    { intros Hpc. unfold step_worker. by rewrite Hpc. }
    assert (Hreset : reqReset (step_worker' st w).1 = reqReset st).
    { unfold step_worker.
      destruct (w_pc w) as [[|chunk todo]|n todo|]; simpl;
        try case_decide; try destruct (cancelled st); done. }
    destruct (step_worker' st w) as [st1 w1] eqn:Est. simpl in *.
    unfold cancel_inv in *. simpl. rewrite Es, Ec, Ecount, Hreset, Ews.
    destruct (sup st) as [| | |[mg|] c|]; try done.
    destruct Hinv as (? & ? & ? & Hall). split_and!; try done.
    pose proof (all_returned_lookup _ _ _ Hall Hw) as Hpc.
    specialize (Hret Hpc). injection Hret as _ <-.
    by rewrite list_insert_id.
  - unfold step_supervisor. unfold cancel_inv in Hinv.
    destruct (sup st) as [| |received partial|mg c|] eqn:Esup;
      [| | |apply Hsame; by rewrite ?Esup..].
    + destruct (countChan st) as [|n rest] eqn:Ecc;
        [apply Hsame; by rewrite ?Esup|].
      simpl. case_decide as Hn;
        [|destruct (reqReset st) eqn:Er; [|case_decide]];
        unfold cancel_inv; simpl; rewrite ?Esup; try done.
      unfold collect. by case_decide.
    + destruct (all_returned (workers st)) eqn:Hall;
        [|apply Hsame; by rewrite ?Esup].
      unfold cancel_inv. simpl. by destruct Hinv as (? & ? & ?).
    + destruct (resultChan st) as [|r rest];
        [apply Hsame; by rewrite ?Esup|].
      simpl. case_decide; unfold cancel_inv; simpl; [|done].
      unfold collect. by case_decide.
Qed.

(** Once the flag is set it stays set, and a goroutine scores at most
    one more chunk before it returns. *)
Lemma cancelled_step st a :
  cancelled st = true →
  cancelled (step' st a) = true
  ∧ (scored (step' st a) + sum_list (alive <$> workers (step' st a))
     ≤ scored st + sum_list (alive <$> workers st))%nat.
Proof.
  intros Hc.
  assert (Hsame : ∀ st', cancelled st' = true → scored st' = scored st →
                          workers st' = workers st →
    cancelled st' = true
    ∧ (scored st' + sum_list (alive <$> workers st')
       ≤ scored st + sum_list (alive <$> workers st))%nat).
  { intros st' E1 E2 E3. by rewrite E1, E2, E3. }
  destruct a as [i| | |]; simpl; [| |by apply Hsame..].
  - destruct (workers st !! i) as [w|] eqn:Hw; [|by apply Hsame].
    pose proof (step_worker_frame pattern sorted tac numChunks slices
                  st w) as (Ews & Ec & _).
    assert (Hsc : (scored (step_worker' st w).1 + alive (step_worker' st w).2
                   ≤ scored st + alive w)%nat).
    { unfold step_worker, alive.
      destruct (w_pc w) as [[|chunk todo]|n todo|] eqn:Hpc; simpl.
      - case_decide; simpl; rewrite ?Hpc; lia.
      - rewrite Hc. simpl. lia.
      - case_decide; simpl; rewrite ?Hpc; lia.
      - rewrite Hpc. lia. }
    destruct (step_worker' st w) as [st1 w1]. simpl in *.
    rewrite Ec, Ews. split; [done|].
    pose proof (sum_list_insert alive (workers st) i w w1 Hw). lia.
  - unfold step_supervisor.
    destruct (sup st) as [| |received partial|mg c|]; [| | |by apply Hsame..].
    + destruct (countChan st) as [|n rest]; [by apply Hsame|]. simpl.
      case_decide; [by apply Hsame|].
      destruct (reqReset st); [by apply Hsame|].
      case_decide; by apply Hsame.
    + destruct (all_returned (workers st)); by apply Hsame.
    + destruct (resultChan st) as [|r rest]; [by apply Hsame|]. simpl.
      case_decide; by apply Hsame.
Qed.

Lemma cancelled_run sched : ∀ st,
  cancelled st = true →
  cancelled (run' sched st) = true
  ∧ (scored (run' sched st) + sum_list (alive <$> workers (run' sched st))
     ≤ scored st + sum_list (alive <$> workers st))%nat.
Proof.
  induction sched as [|a sched IH]; intros st Hc; [done|].
  destruct (cancelled_step st a Hc) as [Hc' Hle].
  destruct (IH _ Hc') as [Hc'' Hle']. split; [done|].
  change (run' (a :: sched) st) with (run' sched (step' st a)). lia.
Qed.

(** Without a posted reset the reset flag of the request box stays as it
    was. *)
Lemma no_reset_run sched : ∀ st,
  PostReset ∉ sched → reqReset (run' sched st) = reqReset st.
Proof.
  induction sched as [|a sched IH]; intros st Hno; [done|].
  apply not_elem_of_cons in Hno as [Hne Hno].
  change (run' (a :: sched) st) with (run' sched (step' st a)).
  rewrite IH by done.
  destruct a as [i| | |]; simpl; try done.
  - destruct (workers st !! i) as [w|]; [|done].
    unfold step_worker.
    destruct (w_pc w) as [[|chunk todo]|n todo|]; simpl;
      try case_decide; try destruct (cancelled st); done.
  - unfold step_supervisor.
    destruct (sup st) as [| |received partial|mg c|]; try done.
    + destruct (countChan st) as [|n rest]; [done|]. simpl.
      case_decide; [done|]. destruct (reqReset st); [done|].
      by case_decide.
    + by destruct (all_returned (workers st)).
    + destruct (resultChan st) as [|r rest]; [done|]. simpl.
      by case_decide.
Qed.

End ScanAccounting.
